(** * go-imap: server handlers of the Selected state, command dispatch,
      update fan-out and the client's LOGOUT

    A shallow embedding of
      - the Selected-state handlers (Check, Close, Expunge, Search, Fetch,
        Store, Copy),
      - [Server.getCommandHandler], [Server.handleCommand] and the body of
        the loop of [Server.handleConn],
      - the delivery loop of [Server.listenUpdates],
      - [Client.Logout],
    followed by the properties established about them.

    Go values are modelled as follows.  An [error] is its message and a
    nil error is [None].  A pointer or interface that may be nil is an
    [option].  A handler runs on a [World]: the connection it was given,
    the backend store behind the mailbox interface, and the trace of what
    the handler did (backend calls and responses written).  A method call
    through a nil interface panics, which ends the handler. *)

From Stdlib Require Import NArith.
From stdpp Require Import gmap strings list sorting.

Local Open Scope string_scope.
Local Open Scope list_scope.
Local Open Scope nat_scope.

(** ** Values of package [common] *)

(** Go [error]: the message carried by the error value. *)
Definition error := string.

(** A field of a parsed line ([interface{}] in Go): an atom or string, a
    parenthesised list, NIL, or a literal. *)
#[warnings="-register-all"]
Inductive Field :=
| FNil
| FString (s : string)
| FList (l : list Field)
| FLiteral (s : string).

Inductive ConnState :=
| NotAuthenticatedState
| AuthenticatedState
| SelectedState
| LogoutState.

#[global] Instance ConnState_eq_dec : EqDecision ConnState.
Proof. solve_decision. Defined.

Inductive StatusRespType := OK | NO | BAD | PREAUTH | BYE.

#[global] Instance StatusRespType_eq_dec : EqDecision StatusRespType.
Proof. solve_decision. Defined.

Record StatusResp := {
  StatusResp_Tag : string;
  StatusResp_Type : StatusRespType;
  StatusResp_Info : string
}.

Record Command := {
  Tag : string;
  Name : string;
  Arguments : list Field
}.

(** [common.Message], with the attributes used below. [Message_Items]
    records which attributes are populated, in the order they were asked. *)
Record Message := {
  Message_SeqNum : N;
  Message_Items : list string;
  Message_Uid : N;
  Message_Flags : list string;
  Message_Size : N
}.

(** [common.FlagsOp] is a string type. *)
Definition FlagsOp := string.

(** Modelled from the spec: the constants of package [common] that name
    the STORE operations, [Item = {+|-|}FLAGS[.SILENT]]. *)
Definition SetFlags : FlagsOp := "FLAGS".
Definition AddFlags : FlagsOp := "+FLAGS".
Definition RemoveFlags : FlagsOp := "-FLAGS".
Definition SilentOp : string := ".SILENT".

(** The parts of package [common] that the handlers only pass around or
    call, and whose declarations are elsewhere. *)
Class Common := {
  SeqSet : Type;
  SearchCriteria : Type;
  (** [&common.SearchCriteria{Deleted: true}] *)
  SearchCriteria_Deleted : SearchCriteria;
  MailboxStatus : Type;
  (** [common.ParseStringList]: the strings of a field list, or an error. *)
  ParseStringList : list Field → list string * option error;
  (** [Parse] of [common.Command]: the command of a line, or an error. *)
  Command_Parse : list Field → Command * option error
}.

(** [strings.HasSuffix] and [strings.TrimSuffix]. *)
Definition HasSuffix (s suffix : string) : bool :=
  (String.length suffix <=? String.length s) &&
  String.eqb
    (String.substring (String.length s - String.length suffix) (String.length suffix) s)
    suffix.

Definition TrimSuffix (s suffix : string) : string :=
  if HasSuffix s suffix
  then String.substring 0 (String.length s - String.length suffix) s
  else s.

(** The outcome of a Go call: its results, or a run-time panic. *)
Inductive Res (A : Type) :=
| Val (a : A)
| Panic (msg : string).
Arguments Val {A} a.
Arguments Panic {A} msg.

(** ** The backend interfaces *)

Section Server.
Context {common : Common} {B : Type}.

(** [backend.Mailbox]: an interface, hence a record of methods.  Each method
    acts on the backend store [B] and returns its Go results.
    [ListMessages] returns the messages it sent on its channel, in order. *)
Record backend_Mailbox := {
  Mailbox_Name : string;
  Mailbox_Check : B → option error * B;
  Mailbox_ListMessages :
    bool → SeqSet → list string → B → (list Message * option error) * B;
  Mailbox_SearchMessages :
    bool → SearchCriteria → B → (list N * option error) * B;
  Mailbox_UpdateMessagesFlags :
    bool → SeqSet → FlagsOp → list string → B → option error * B;
  Mailbox_CopyMessages : bool → SeqSet → string → B → option error * B;
  Mailbox_Expunge : B → option error * B
}.

(** [backend.User], of which only [Username] is used. *)
Record backend_User := { User_Username : string }.

(** [*backend.Updates]: the four update channels of a backend. *)
Inductive backend_Updates := UpdatesChannels.

(** The fields of [Server] that a handler reads through [conn.Server]. The
    registry and the connection list stay with the dispatcher below. *)
Record ConnServer := { Updates : option backend_Updates }.

(** [server.Conn] *)
Record Conn := {
  State : ConnState;
  User : option backend_User;
  Mailbox : option backend_Mailbox;
  MailboxReadOnly : bool;
  silent : bool;
  Server : ConnServer
}.

Definition set_Mailbox (m : option backend_Mailbox) (c : Conn) : Conn :=
  {| State := State c; User := User c; Mailbox := m;
     MailboxReadOnly := MailboxReadOnly c; silent := silent c;
     Server := Server c |}.

Definition set_MailboxReadOnly (ro : bool) (c : Conn) : Conn :=
  {| State := State c; User := User c; Mailbox := Mailbox c;
     MailboxReadOnly := ro; silent := silent c; Server := Server c |}.

Definition set_silent (s : bool) (c : Conn) : Conn :=
  {| State := State c; User := User c; Mailbox := Mailbox c;
     MailboxReadOnly := MailboxReadOnly c; silent := s; Server := Server c |}.

(** ** What a handler does *)

Inductive BackendCall :=
| CallCheck
| CallListMessages (uid : bool) (seqset : SeqSet) (items : list string)
| CallSearchMessages (uid : bool) (criteria : SearchCriteria)
| CallUpdateMessagesFlags (uid : bool) (seqset : SeqSet) (op : FlagsOp)
    (flags : list string)
| CallCopyMessages (uid : bool) (seqset : SeqSet) (dest : string)
| CallExpunge.

(** A response handed to [conn.WriteRes]. A channel of a streamed response
    ([SeqNums], [Messages]) is the list of the values sent on it, in the
    order they were sent. *)
Inductive Response :=
| RStatus (r : StatusResp)
| RSelect (status : MailboxStatus)
| RSearch (Ids : list N)
| RFetch (Messages : list Message)
| RExpunge (SeqNums : list N).

(** An untagged or tagged line as it leaves the server. *)
Inductive Line :=
| StatusLine (r : StatusResp)
| SelectLines (status : MailboxStatus)
| SearchLine (ids : list N)
| FetchLine (m : Message)
| ExpungeLine (n : N).

(** Modelled from the spec: [WriteTo] of the responses of package
    [responses]: a FETCH response streams one [* seq FETCH (...)] per
    message, an EXPUNGE response one [* n EXPUNGE] per sequence number,
    a SEARCH response a single [* SEARCH id1 id2 ...]. *)
Definition Response_lines (r : Response) : list Line :=
  match r with
  | RStatus st => [StatusLine st]
  | RSelect status => [SelectLines status]
  | RSearch ids => [SearchLine ids]
  | RFetch msgs => FetchLine <$> msgs
  | RExpunge seqnums => ExpungeLine <$> seqnums
  end.

(** [EvCall m call c]: method [call] of mailbox [m] ran while the
    connection was [c]. [EvWrite r]: [r] was written to the connection. *)
Inductive Event :=
| EvCall (m : backend_Mailbox) (call : BackendCall) (c : Conn)
| EvWrite (r : Response).

Record World := {
  conn : Conn;
  backend : B;
  trace : list Event
}.

Definition M (A : Type) : Type := World → Res A * World.

Definition ret {A} (a : A) : M A := λ w, (Val a, w).

Definition bind {A C} (m : M A) (k : A → M C) : M C :=
  λ w, match m w with
       | (Val a, w') => k a w'
       | (Panic msg, w') => (Panic msg, w')
       end.

Definition get_conn : M Conn := λ w, (Val (conn w), w).

Definition modify_conn (f : Conn → Conn) : M unit :=
  λ w, (Val tt, {| conn := f (conn w); backend := backend w; trace := trace w |}).

Definition nil_dereference : string :=
  "invalid memory address or nil pointer dereference".

(** [conn.Mailbox.method(args)]: the handle is read from the connection as
    it is at the call; a nil handle panics. *)
Definition call_Mailbox {A} (call : BackendCall)
    (method : backend_Mailbox → B → A * B) : M A :=
  λ w, match Mailbox (conn w) with
       | None => (Panic nil_dereference, w)
       | Some m =>
           let '(a, b') := method m (backend w) in
           (Val a, {| conn := conn w; backend := b';
                      trace := trace w ++ [EvCall m call (conn w)] |})
       end.

(** Modelled from the spec: [conn.WriteRes(r)] serializes [r] under the
    write lock and flushes; here the response joins the trace. *)
Definition WriteRes (r : Response) : M (option error) :=
  λ w, (Val None, {| conn := conn w; backend := backend w;
                     trace := trace w ++ [EvWrite r] |}).


#[global] Instance M_ret : MRet M := @ret.
#[global] Instance M_bind : MBind M := λ A C k m, bind m k.

(** ** Handlers of the Selected state *)

(** Common errors in Selected state. *)
Definition ErrNoMailboxSelected : error := "No mailbox selected".
Definition ErrMailboxReadOnly : error := "Mailbox opened in read-only mode".

(** [func (cmd *Check) Handle(conn *Conn) error] *)
Definition Check_Handle : M (option error) :=
  c ← get_conn;
  if Mailbox c is None then mret (Some ErrNoMailboxSelected) else
  if MailboxReadOnly c then mret (Some ErrMailboxReadOnly) else
  call_Mailbox CallCheck Mailbox_Check.

(** [func (cmd *Close) Handle(conn *Conn) error] *)
Definition Close_Handle : M (option error) :=
  c ← get_conn;
  if Mailbox c is None then mret (Some ErrNoMailboxSelected) else
  modify_conn (set_Mailbox None) ;;
  modify_conn (set_MailboxReadOnly false) ;;
  err ← call_Mailbox CallExpunge Mailbox_Expunge;
  if err is Some e then mret (Some e) else
  mret None.

(** The loop [for i := len(seqnums) - 1; i >= 0; i-- { ch <- seqnums[i] }]
    entered with [i + 1 = n]: the values sent on [ch], first sent first. *)
Fixpoint send_seqnums (seqnums : list N) (n : nat) : list N :=
  match n with
  | O => []
  | S i =>
      match seqnums !! i with
      | Some seqnum => seqnum :: send_seqnums seqnums i
      | None => send_seqnums seqnums i
      end
  end.

(** [func (cmd *Expunge) Handle(conn *Conn) error] *)
Definition Expunge_Handle : M (option error) :=
  c ← get_conn;
  if Mailbox c is None then mret (Some ErrNoMailboxSelected) else
  if MailboxReadOnly c then mret (Some ErrMailboxReadOnly) else
  found ←
    (if Updates (Server c) is None
     then call_Mailbox (CallSearchMessages false SearchCriteria_Deleted)
            (λ m, Mailbox_SearchMessages m false SearchCriteria_Deleted)
     else mret ([], None));
  let '(seqnums, err) := found in
  if err is Some e then mret (Some e) else
  err ← call_Mailbox CallExpunge Mailbox_Expunge;
  if err is Some e then mret (Some e) else
  if Updates (Server c) is None
  then
    let ch := send_seqnums seqnums (length seqnums) in
    err ← WriteRes (RExpunge ch);
    if err is Some e then mret (Some e) else mret None
  else mret None.

(** [commands.Search], [commands.Fetch], [commands.Store], [commands.Copy]:
    the parsed arguments of the command. *)
Record Search := { Search_Criteria : SearchCriteria }.

Record Fetch := {
  Fetch_SeqSet : SeqSet;
  Fetch_Items : list string
}.

Record Store := {
  Store_SeqSet : SeqSet;
  Store_Item : string;
  Store_Value : Field
}.

Record Copy := {
  Copy_SeqSet : SeqSet;
  Copy_Mailbox : string
}.

(** [func (cmd *Search) handle(uid bool, conn *Conn) error] *)
Definition Search_handle (uid : bool) (cmd : Search) : M (option error) :=
  c ← get_conn;
  if Mailbox c is None then mret (Some ErrNoMailboxSelected) else
  found ← call_Mailbox (CallSearchMessages uid (Search_Criteria cmd))
            (λ m, Mailbox_SearchMessages m uid (Search_Criteria cmd));
  let '(ids, err) := found in
  if err is Some e then mret (Some e) else
  WriteRes (RSearch ids).

Definition Search_Handle (cmd : Search) : M (option error) :=
  Search_handle false cmd.

Definition Search_UidHandle (cmd : Search) : M (option error) :=
  Search_handle true cmd.

(** [func (cmd *Fetch) handle(uid bool, conn *Conn) error]. The writer
    started before [ListMessages] writes the messages as the backend sends
    them; the handler answers the backend's error without waiting for it. *)
Definition Fetch_handle (uid : bool) (cmd : Fetch) : M (option error) :=
  c ← get_conn;
  if Mailbox c is None then mret (Some ErrNoMailboxSelected) else
  listed ← call_Mailbox (CallListMessages uid (Fetch_SeqSet cmd) (Fetch_Items cmd))
             (λ m, Mailbox_ListMessages m uid (Fetch_SeqSet cmd) (Fetch_Items cmd));
  let '(ch, err) := listed in
  done ← WriteRes (RFetch ch);
  if err is Some e then mret (Some e) else
  mret done.

Definition Fetch_Handle (cmd : Fetch) : M (option error) :=
  Fetch_handle false cmd.

(** The loop of [Fetch.UidHandle] that looks for ["UID"] in [cmd.Items]. *)
Fixpoint hasUid (items : list string) : bool :=
  match items with
  | [] => false
  | item :: rest => if String.eqb item "UID" then true else hasUid rest
  end.

(** [func (cmd *Fetch) UidHandle(conn *Conn) error] *)
Definition Fetch_UidHandle (cmd : Fetch) : M (option error) :=
  let cmd :=
    if negb (hasUid (Fetch_Items cmd))
    then {| Fetch_SeqSet := Fetch_SeqSet cmd;
            Fetch_Items := Fetch_Items cmd ++ ["UID"] |}
    else cmd in
  Fetch_handle true cmd.

(** [func (cmd *Store) handle(uid bool, conn *Conn) error] *)
Definition Store_handle (uid : bool) (cmd : Store) : M (option error) :=
  c ← get_conn;
  if Mailbox c is None then mret (Some ErrNoMailboxSelected) else
  if MailboxReadOnly c then mret (Some ErrMailboxReadOnly) else
  let itemStr := Store_Item cmd in
  let silent := HasSuffix itemStr SilentOp in
  let itemStr := if silent then TrimSuffix itemStr SilentOp else itemStr in
  let item : FlagsOp := itemStr in
  if negb (String.eqb item SetFlags) && negb (String.eqb item AddFlags)
     && negb (String.eqb item RemoveFlags)
  then mret (Some "Unsupported STORE operation") else
  match Store_Value cmd with
  | FList flagsList =>
      let '(flags, err) := ParseStringList flagsList in
      if err is Some e then mret (Some e) else
      modify_conn (set_silent silent) ;;
      err ← call_Mailbox
              (CallUpdateMessagesFlags uid (Store_SeqSet cmd) item flags)
              (λ m, Mailbox_UpdateMessagesFlags m uid (Store_SeqSet cmd) item flags);
      modify_conn (set_silent false) ;;
      if err is Some e then mret (Some e) else
      c ← get_conn;
      if (if Updates (Server c) is None then true else false) && negb silent
      then
        let inner :=
          {| Fetch_SeqSet := Store_SeqSet cmd;
             Fetch_Items := if uid then ["FLAGS"] ++ ["UID"] else ["FLAGS"] |} in
        err ← Fetch_handle uid inner;
        if err is Some e then mret (Some e) else mret None
      else mret None
  | _ => mret (Some "Flags must be a list")
  end.

Definition Store_Handle (cmd : Store) : M (option error) :=
  Store_handle false cmd.

Definition Store_UidHandle (cmd : Store) : M (option error) :=
  Store_handle true cmd.

(** [func (cmd *Copy) handle(uid bool, conn *Conn) error] *)
Definition Copy_handle (uid : bool) (cmd : Copy) : M (option error) :=
  c ← get_conn;
  if Mailbox c is None then mret (Some ErrNoMailboxSelected) else
  call_Mailbox (CallCopyMessages uid (Copy_SeqSet cmd) (Copy_Mailbox cmd))
    (λ m, Mailbox_CopyMessages m uid (Copy_SeqSet cmd) (Copy_Mailbox cmd)).

Definition Copy_Handle (cmd : Copy) : M (option error) :=
  Copy_handle false cmd.

Definition Copy_UidHandle (cmd : Copy) : M (option error) :=
  Copy_handle true cmd.

(** ** The dispatcher *)

(** The [Handler] interface as the dispatcher uses it: a fresh handler is
    given the arguments by [Parse], then [Handle] runs it on the
    connection. [Handle args] is [Handle] of the handler that parsed
    [args]. *)
Record Handler := {
  Parse : list Field → option error;
  Handle : list Field → M (option error)
}.

Definition HandlerFactory := unit → Handler.

(** The [Server] fields of the dispatcher and of the fan-out. *)
Record Server_ := {
  commands : gmap string HandlerFactory;
  conns : list Conn
}.

(** [func (s *Server) getCommandHandler(cmd *common.Command) (hdlr Handler, err error)] *)
Definition getCommandHandler (s : Server_) (cmd : Command)
    : option Handler * option error :=
  let newHandler : option HandlerFactory := commands s !! Name cmd in
  match newHandler with
  | None => (None, Some "Unknown command")
  | Some newHandler =>
      let hdlr := newHandler () in
      (Some hdlr, Parse hdlr (Arguments cmd))
  end.

(** [func (s *Server) handleCommand(cmd *common.Command, conn *Conn) (res common.WriterTo, err error)] *)
Definition handleCommand (s : Server_) (cmd : Command)
    : M (option StatusResp * option error) :=
  let '(hdlr, err) := getCommandHandler s cmd in
  if err is Some e then mret (None, Some e) else
  match hdlr with
  | None => λ w, (Panic nil_dereference, w)
  | Some hdlr =>
      err ← Handle hdlr (Arguments cmd);
      if err is Some e
      then mret (Some {| StatusResp_Tag := Tag cmd; StatusResp_Type := NO;
                         StatusResp_Info := e |}, None)
      else mret (Some {| StatusResp_Tag := Tag cmd; StatusResp_Type := OK;
                         StatusResp_Info := (Name cmd ++ " completed")%string |}, None)
  end.

(** One turn of the loop of [Server.handleConn], from the line [fields]
    that [conn.ReadLine] returned to the response written for it. *)
Definition handleConn_line (s : Server_) (fields : list Field) : M unit :=
  let '(cmd, perr) := Command_Parse fields in
  res ←
    (if perr is Some e
     then mret (Some {| StatusResp_Tag := "*"; StatusResp_Type := BAD;
                        StatusResp_Info := e |})
     else
       answer ← handleCommand s cmd;
       let '(res, err) := answer in
       if err is Some e
       then mret (Some {| StatusResp_Tag := Tag cmd; StatusResp_Type := BAD;
                          StatusResp_Info := e |})
       else mret res);
  match res with
  | None => λ w, (Panic nil_dereference, w)
  | Some r => WriteRes (RStatus r) ;; mret tt
  end.

(** ** The update fan-out *)

(** [backend.Update]: the filter carried by every update. *)
Record backend_Update := {
  Update_Username : string;
  Update_Mailbox : string
}.

(** The type test of [res] against a pointer to [responses.Fetch]. *)
Definition is_Fetch (res : Response) : bool :=
  match res with
  | RFetch _ => true
  | _ => false
  end.

(** The body of [for _, conn := range s.conns] in [Server.listenUpdates]:
    [true] when the loop reaches [conn.Writer.Write(b.Bytes())], [false]
    when it leaves by one of the [continue]s. *)
Definition listenUpdates_writes (update : backend_Update) (res : Response)
    (conn : Conn) : bool :=
  if negb (String.eqb (Update_Username update) "")
     && match User conn with
        | None => true
        | Some user => negb (String.eqb (User_Username user) (Update_Username update))
        end
  then false else
  if negb (String.eqb (Update_Mailbox update) "")
     && match Mailbox conn with
        | None => true
        | Some mbox => negb (String.eqb (Mailbox_Name mbox) (Update_Mailbox update))
        end
  then false else
  if silent conn
  then (if is_Fetch res then false else true)
  else true.

(** The loop over [s.conns], entered at the connection of index [i]: the
    writes it makes, each with the index of the connection written to. *)
Fixpoint listenUpdates_range (update : backend_Update) (res : Response)
    (b : list Byte.byte) (i : nat) (conns : list Conn)
    : list (nat * list Byte.byte) :=
  match conns with
  | [] => []
  | conn :: rest =>
      if listenUpdates_writes update res conn
      then (i, b) :: listenUpdates_range update res b (S i) rest
      else listenUpdates_range update res b (S i) rest
  end.

(** One update through [Server.listenUpdates]: [res] is formatted once by
    [WriteTo] and the buffer is written to the connections. *)
Definition listenUpdates_update (WriteTo : Response → list Byte.byte)
    (s : Server_) (update : backend_Update) (res : Response)
    : list (nat * list Byte.byte) :=
  let b := WriteTo res in
  listenUpdates_range update res b 0 (conns s).

End Server.

(** ** The client *)

Module Client.
Section Client.
(** [T] is the connection under the client, as [c.execute] sees it. *)
Context {T : Type}.

(** The commands of package [commands] sent below. *)
Inductive Commander :=
| Capability
| Noop
| Logout_.

(** [client.Client], with [executed], the commands handed to [c.execute]
    so far. *)
Record Client := {
  State : ConnState;
  Caps : gmap string bool;
  link : T;
  executed : list Commander
}.

(** Modelled from the spec: [Err] of [common.StatusResp] returns a failure
    when the type is NO or BAD; the failure carries the status's text. *)
Definition StatusResp_Err (status : StatusResp) : option error :=
  match StatusResp_Type status with
  | NO | BAD => Some (StatusResp_Info status)
  | _ => None
  end.

(** [c.execute(cmd, res)] of [client.go]: it sends the command and returns
    the final status, or an error. What the exchange returns and how it
    leaves the client is [run]. *)
Variable run : Commander → Client → (option StatusResp * option error) * Client.

Definition execute (cmd : Commander) (c : Client)
    : (option StatusResp * option error) * Client :=
  let '(answer, c') := run cmd c in
  (answer, {| State := State c'; Caps := Caps c'; link := link c';
              executed := executed c ++ [cmd] |}).

(** [func (c *Client) Logout() (err error)] *)
Definition Logout (c : Client) : option error * Client :=
  if decide (State c = LogoutState)
  then (Some "Already logged out", c)
  else
    let cmd := Logout_ in
    let '((status, err), c) := execute cmd c in
    if err is Some e then (Some e, c) else
    match status with
    | Some status => (StatusResp_Err status, c)
    | None => (None, c)
    end.

End Client.
End Client.

(** * More of the server *)

Section ServerMore.
Context {common : Common} {B : Type}.

(** [commands.Uid]: [Uid_Cmd] is the inner command, [cmd.Cmd.Command()]. *)
Record Uid := { Uid_Cmd : Command }.

(** [func (cmd *Uid) Handle(conn *Conn) error]. [s] is [conn.Server], and
    [asUidHandler hdlr] the type assertion of [hdlr] against [UidHandler]:
    the [UidHandle] of the handler when its type has one. The assertion
    fails on a nil interface. *)
Definition Uid_Handle (s : @Server_ _ B)
    (asUidHandler : @Handler _ B → option (list Field → @M _ B (option error)))
    (cmd : Uid) : @M _ B (option error) :=
  let '(hdlr, err) := getCommandHandler s (Uid_Cmd cmd) in
  if err is Some e then mret (Some e) else
  let uidHdlr := hdlr ≫= asUidHandler in
  match uidHdlr with
  | None => mret (Some "Command unsupported with UID")
  | Some UidHandle => UidHandle (Arguments (Uid_Cmd cmd))
  end.

(** [common.ConnState] is an integer type whose values are used as bit
    masks; [s.caps] maps a capability to the states that show it. The
    iteration over a Go map has no fixed order: the list below is one of
    the orders [getCaps] may return.

    [func (s *Server) getCaps(currentState common.ConnState) (caps []string)] *)
Definition getCaps (caps : gmap string Z) (currentState : Z) : list string :=
  map_to_list caps ≫= λ '(name, state),
    if bool_decide (Z.land currentState state ≠ 0%Z) then [name] else [].

(** [func (s *Server) RegisterCapability(name string, state common.ConnState)] *)
Definition RegisterCapability (name : string) (state : Z)
    (caps : gmap string Z) : gmap string Z :=
  <[name := state]> caps.

(** [func (s *Server) RegisterCommand(name string, f HandlerFactory)] *)
Definition RegisterCommand (name : string) (f : @HandlerFactory _ B)
    (s : @Server_ _ B) : @Server_ _ B :=
  {| commands := <[name := f]> (commands s); conns := conns s |}.

(** The callback of the PLAIN mechanism in [NewServer]. [Login] is
    [bkd.Login], a method of the backend. *)
Definition PlainServer (Login : string → string → B → (option backend_User * option error) * B)
    (identity username password : string) : @M _ B (option error) :=
  if negb (String.eqb identity "") && negb (String.eqb identity username)
  then mret (Some "Identities not supported")
  else λ w,
    let '((user, err), b') := Login username password (backend w) in
    if err is Some e
    then (Val (Some e), {| conn := conn w; backend := b'; trace := trace w |})
    else (Val None,
          {| conn := {| State := AuthenticatedState; User := user;
                        Mailbox := Mailbox (conn w);
                        MailboxReadOnly := MailboxReadOnly (conn w);
                        silent := silent (conn w); Server := Server (conn w) |};
             backend := b'; trace := trace w |}).

(** What [listenUpdates] receives from one of the four channels of
    [s.Updates]: each carries its [Update] filter and a payload. *)
Inductive UpdateItem :=
| StatusUpdate (update : backend_Update) (StatusResp_ : StatusResp)
| MailboxUpdate (update : backend_Update) (MailboxStatus_ : MailboxStatus)
| MessageUpdate (update : backend_Update) (Message_ : Message)
| ExpungeUpdate (update : backend_Update) (SeqNum : N).

(** The [select] of [listenUpdates]: the filter and the response built
    for what was received. *)
Definition listenUpdates_select (item : UpdateItem) : backend_Update * @Response _ :=
  match item with
  | StatusUpdate update status => (update, RStatus status)
  | MailboxUpdate update mailbox => (update, RSelect mailbox)
  | MessageUpdate update message => (update, RFetch [message])
  | ExpungeUpdate update seqnum => (update, RExpunge [seqnum])
  end.

(** One turn of the loop of [listenUpdates]. *)
Definition listenUpdates_turn (WriteTo : @Response _ → list Byte.byte)
    (s : @Server_ _ B) (item : UpdateItem) : list (nat * list Byte.byte) :=
  let '(update, res) := listenUpdates_select item in
  listenUpdates_update WriteTo s update res.

End ServerMore.

(** * More of the client *)

Section ClientMore.
Context {T : Type}.

(** [status.Err()] on a status that may be nil is [Err status]; what it
    does is decided in package [common]. [answered c] is [res.Caps] as the
    exchange that [c.execute] runs from [c] fills it. *)
Variable run :
  Client.Commander → @Client.Client T → (option StatusResp * option error) * @Client.Client T.
Variable Err : option StatusResp → Res (option error).
Variable answered : @Client.Client T → list string.

(** The loop [for _, name := range res.Caps { caps[name] = true }]. *)
Fixpoint Capability_caps (names : list string) (caps : gmap string bool)
    : gmap string bool :=
  match names with
  | [] => caps
  | name :: rest => Capability_caps rest (<[name := true]> caps)
  end.

(** [func (c *Client) Capability() (caps map[string]bool, err error)]:
    the result, with [None] for a nil map, and the client afterwards. *)
Definition Client_Capability (c : @Client.Client T)
    : Res (option (gmap string bool) * option error) * @Client.Client T :=
  let '((status, err), c1) := Client.execute run Client.Capability c in
  if err is Some e then (Val (None, Some e), c1) else
  match Err status with
  | Panic msg => (Panic msg, c1)
  | Val (Some e) => (Val (None, Some e), c1)
  | Val None =>
      let caps := Capability_caps (answered c) ∅ in
      (Val (Some caps, None),
       {| Client.State := Client.State c1; Client.Caps := caps;
          Client.link := Client.link c1; Client.executed := Client.executed c1 |})
  end.

(** [func (c *Client) SupportsAuthentication(mech string) bool]: a key
    that is missing reads as [false]. *)
Definition Client_SupportsAuthentication (mech : string) (c : @Client.Client T) : bool :=
  default false (Client.Caps c !! ("AUTH=" ++ mech)%string).

(** [func (c *Client) Noop() (err error)] *)
Definition Client_Noop (c : @Client.Client T) : Res (option error) * @Client.Client T :=
  let '((status, err), c1) := Client.execute run Client.Noop c in
  if err is Some e then (Val (Some e), c1) else
  (Err status, c1).

End ClientMore.

(** * What the properties speak of *)

(** Invariant (i) of the data model: a connection in Selected state has a
    mailbox handle, and in any other state it has none. *)
Definition conn_invariant `{Common} {B : Type} (c : @Conn _ B) : Prop :=
  State c = SelectedState ↔ Mailbox c ≠ None.

(** A computation that leaves the connection's state and mailbox handle
    as it found them, however it ends. *)
Definition keeps_selection `{Common} {B : Type} {A : Type} (m : @M _ B A) : Prop :=
  ∀ w, State (conn (m w).2) = State (conn w) ∧
       Mailbox (conn (m w).2) = Mailbox (conn w).

(** The lines that a trace wrote to the connection. *)
Definition written `{Common} {B : Type} (tr : list (@Event _ B)) : list Line :=
  tr ≫= λ e, match e with
             | EvWrite r => Response_lines r
             | EvCall _ _ _ => []
             end.

(** The call of [UpdateMessagesFlags] in a trace. *)
Definition is_UpdateMessagesFlags `{Common} {B : Type} (e : @Event _ B) : bool :=
  match e with
  | EvCall _ (CallUpdateMessagesFlags _ _ _ _) _ => true
  | _ => false
  end.

(** The status with the tag of [cmd], and the world after it is written. *)
Definition tagged (cmd : Command) (type : StatusRespType) (info : string)
    : StatusResp :=
  {| StatusResp_Tag := Tag cmd; StatusResp_Type := type; StatusResp_Info := info |}.

Definition wrote `{Common} {B : Type} (r : StatusResp) (w : @World _ B)
    : @World _ B :=
  {| conn := conn w; backend := backend w;
     trace := trace w ++ [EvWrite (RStatus r)] |}.

(** The filter of an update, as the three tests of the loop state it. *)
Definition receives `{Common} {B : Type} (update : backend_Update)
    (res : @Response _) (conn : @Conn _ B) : Prop :=
  (Update_Username update = ""%string ∨
   ∃ user, User conn = Some user ∧ User_Username user = Update_Username update) ∧
  (Update_Mailbox update = ""%string ∨
   ∃ mbox, Mailbox conn = Some mbox ∧ Mailbox_Name mbox = Update_Mailbox update) ∧
  ¬ (silent conn = true ∧ is_Fetch res = true).

(** A computation that writes nothing to the connection. *)
Definition never_writes `{Common} {B : Type} {A : Type} (m : @M _ B A) : Prop :=
  ∀ w, written (trace (m w).2) = written (trace w).

(** The backend calls of a trace, oldest first. *)
Definition backend_calls `{Common} {B : Type} (tr : list (@Event _ B))
    : list BackendCall :=
  tr ≫= λ e, match e with
             | EvCall _ call _ => [call]
             | EvWrite _ => []
             end.

(** A world whose connection has the read-only flag [ro]. *)
Definition with_MailboxReadOnly `{Common} {B : Type} (ro : bool) (w : @World _ B)
    : @World _ B :=
  {| conn := set_MailboxReadOnly ro (conn w); backend := backend w;
     trace := trace w |}.

(** The items that STORE takes: the three operations, each with or
    without [.SILENT]. *)
Definition store_items : list string :=
  [SetFlags; AddFlags; RemoveFlags;
   SetFlags ++ SilentOp; AddFlags ++ SilentOp; RemoveFlags ++ SilentOp]%string.

(** The payload of an update is a message. *)
Definition is_MessageUpdate `{Common} (item : UpdateItem) : bool :=
  match item with
  | MessageUpdate _ _ => true
  | _ => false
  end.

(** * A small backend to run the handlers on *)

(** Sequence sets and search criteria as their wire form, and the usual
    parsers: a string list wants strings only, a command line is a tag, a
    name and the arguments. *)
Fixpoint demo_ParseStringList (fields : list Field) : list string * option error :=
  match fields with
  | [] => ([], None)
  | FString s :: rest =>
      let '(l, err) := demo_ParseStringList rest in
      if err is Some e then ([], Some e) else (s :: l, None)
  | _ => ([], Some "String list contains a non-string")
  end.

Definition demo_Command_Parse (fields : list Field) : Command * option error :=
  match fields with
  | FString tag :: FString name :: args =>
      ({| Tag := tag; Name := name; Arguments := args |}, None)
  | _ => ({| Tag := ""; Name := ""; Arguments := [] |}, Some "Imap command must have at least a tag and a name")
  end.

#[export] Instance demo_Common : Common := {|
  SeqSet := string;
  SearchCriteria := string;
  SearchCriteria_Deleted := "DELETED";
  MailboxStatus := string;
  ParseStringList := demo_ParseStringList;
  Command_Parse := demo_Command_Parse
|}.

(** The store of the demo backend: the sequence numbers of the messages
    flagged [\Deleted] in INBOX, in ascending order. *)
Definition demo_B := list N.

(** INBOX lists one message, with the items in the order requested. *)
Definition demo_INBOX : @backend_Mailbox demo_Common demo_B := {|
  Mailbox_Name := "INBOX";
  Mailbox_Check := λ b, (None, b);
  Mailbox_ListMessages := λ uid seqset items b,
    (([{| Message_SeqNum := 1; Message_Items := items; Message_Uid := 10;
          Message_Flags := ["\Seen"]; Message_Size := 4242 |}], None), b);
  Mailbox_SearchMessages := λ uid criteria b, ((b, None), b);
  Mailbox_UpdateMessagesFlags := λ uid seqset op flags b, (None, b);
  Mailbox_CopyMessages := λ uid seqset dest b, (None, b);
  Mailbox_Expunge := λ b, (None, [])
|}.

(** A mailbox whose every method fails. *)
Definition demo_broken : @backend_Mailbox demo_Common demo_B := {|
  Mailbox_Name := "Broken";
  Mailbox_Check := λ b, (Some "backend failure", b);
  Mailbox_ListMessages := λ uid seqset items b, (([], Some "backend failure"), b);
  Mailbox_SearchMessages := λ uid criteria b, (([], Some "backend failure"), b);
  Mailbox_UpdateMessagesFlags := λ uid seqset op flags b, (Some "backend failure", b);
  Mailbox_CopyMessages := λ uid seqset dest b, (Some "backend failure", b);
  Mailbox_Expunge := λ b, (Some "backend failure", b)
|}.

Definition demo_conn (mbox : option (@backend_Mailbox demo_Common demo_B))
    (ro : bool) (updates : option backend_Updates)
    : @Conn demo_Common demo_B := {|
  State := if mbox is None then AuthenticatedState else SelectedState;
  User := Some {| User_Username := "alice" |};
  Mailbox := mbox;
  MailboxReadOnly := ro;
  silent := false;
  Server := {| Updates := updates |}
|}.

Definition demo_world (c : @Conn demo_Common demo_B) (b : demo_B) : World :=
  {| conn := c; backend := b; trace := [] |}.

(** [a1 STORE 1:3 +FLAGS.SILENT (\Seen)] and [a2 UID STORE 1:3 FLAGS (\Seen)] *)
Definition demo_store_silent : @Store demo_Common := {|
  Store_SeqSet := "1:3"%string;
  Store_Item := "+FLAGS.SILENT"%string;
  Store_Value := FList [FString "\Seen"]
|}.

Definition demo_store_loud : @Store demo_Common := {|
  Store_SeqSet := "1:3"%string;
  Store_Item := "FLAGS"%string;
  Store_Value := FList [FString "\Seen"]
|}.

(** The registry of the demo server: CHECK, CLOSE and EXPUNGE take no
    argument. *)
Definition no_arguments (args : list Field) : option error :=
  match args with
  | [] => None
  | _ :: _ => Some "Too many arguments"%string
  end.

Definition demo_server : @Server_ demo_Common demo_B := {|
  commands :=
    <["CHECK"%string := λ _, {| Parse := no_arguments; Handle := λ _, Check_Handle |}]>
    (<["CLOSE"%string := λ _, {| Parse := no_arguments; Handle := λ _, Close_Handle |}]>
    (<["EXPUNGE"%string := λ _, {| Parse := no_arguments; Handle := λ _, Expunge_Handle |}]>
     ∅));
  conns := []
|}.

(** Two connections: alice on INBOX, and one that has not logged in. *)
Definition demo_anonymous : @Conn demo_Common demo_B := {|
  State := NotAuthenticatedState;
  User := None;
  Mailbox := None;
  MailboxReadOnly := false;
  silent := false;
  Server := {| Updates := Some UpdatesChannels |}
|}.

Definition demo_fanout_server : @Server_ demo_Common demo_B := {|
  commands := ∅;
  conns := [demo_conn (Some demo_INBOX) false (Some UpdatesChannels); demo_anonymous]
|}.

Definition demo_WriteTo (res : @Response demo_Common) : list Byte.byte :=
  if is_Fetch res
  then String.list_byte_of_string "* 1 FETCH (FLAGS (\Seen))"
  else String.list_byte_of_string "* 3 EXPUNGE".

(** A server that answers every command with a tagged NO. *)
Definition demo_run (cmd : Client.Commander) (c : @Client.Client unit)
    : (option StatusResp * option error) * @Client.Client unit :=
  ((Some {| StatusResp_Tag := "a1"; StatusResp_Type := NO;
            StatusResp_Info := "Not now" |}, None), c).

Definition demo_client (state : ConnState) : @Client.Client unit := {|
  Client.State := state;
  Client.Caps := ∅;
  Client.link := tt;
  Client.executed := []
|}.

(** The demo server with the UID prefix command, which resolves its inner
    command in [demo_server]; and the two answers of the type assertion
    against [UidHandler]. *)
Definition demo_uid_handlers (h : @Handler demo_Common demo_B)
    : option (list Field → @M demo_Common demo_B (option error)) :=
  Some (Handle h).

Definition demo_no_uid_handlers (h : @Handler demo_Common demo_B)
    : option (list Field → @M demo_Common demo_B (option error)) :=
  None.

Definition demo_inner (args : list Field) : Command :=
  match args with
  | FString name :: rest => {| Tag := ""; Name := name; Arguments := rest |}
  | _ => {| Tag := ""; Name := ""; Arguments := [] |}
  end.

Definition demo_uid_server : @Server_ demo_Common demo_B :=
  RegisterCommand "UID"
    (λ _, {| Parse := λ _, None;
             Handle := λ args,
               Uid_Handle demo_server demo_uid_handlers {| Uid_Cmd := demo_inner args |} |})
    demo_server.

(** Capabilities: STARTTLS before authentication (state 1), IDLE when
    authenticated or selected (states 2 and 4). *)
Definition demo_caps : gmap string Z :=
  RegisterCapability "IDLE" 6 (RegisterCapability "STARTTLS" 1 ∅).

(** A backend that knows one password. *)
Definition demo_Login (username password : string) (b : demo_B)
    : (option backend_User * option error) * demo_B :=
  if String.eqb password "secret"
  then ((Some {| User_Username := username |}, None), b)
  else ((None, Some "Bad credentials"%string), b).

(** A server that answers every command with a tagged OK, and what it
    lists as capabilities. *)
Definition demo_run_ok (cmd : Client.Commander) (c : @Client.Client unit)
    : (option StatusResp * option error) * @Client.Client unit :=
  ((Some {| StatusResp_Tag := "a1"; StatusResp_Type := OK;
            StatusResp_Info := "completed" |}, None), c).

Definition demo_answered (c : @Client.Client unit) : list string :=
  ["IMAP4rev1"; "AUTH=PLAIN"]%string.

Definition demo_Err (status : option StatusResp) : Res (option error) :=
  match status with
  | Some status => Val (Client.StatusResp_Err status)
  | None => Panic nil_dereference
  end.

(** A mailbox that finds its deleted messages and then fails to expunge
    them. *)
Definition demo_locked : @backend_Mailbox demo_Common demo_B := {|
  Mailbox_Name := "Locked";
  Mailbox_Check := λ b, (None, b);
  Mailbox_ListMessages := λ uid seqset items b, (([], None), b);
  Mailbox_SearchMessages := λ uid criteria b, ((b, None), b);
  Mailbox_UpdateMessagesFlags := λ uid seqset op flags b, (None, b);
  Mailbox_CopyMessages := λ uid seqset dest b, (None, b);
  Mailbox_Expunge := λ b, (Some "Mailbox is locked"%string, b)
|}.

(** alice in the middle of a silent STORE, and a connection that has not
    logged in. *)
Definition demo_silent_server : @Server_ demo_Common demo_B := {|
  commands := ∅;
  conns := [set_silent true (demo_conn (Some demo_INBOX) false (Some UpdatesChannels));
            demo_anonymous]
|}.


Definition demo_message : Message :=
  {| Message_SeqNum := 1; Message_Items := ["FLAGS"]%string; Message_Uid := 10;
     Message_Flags := ["\Seen"%string]; Message_Size := 4242 |}.

(** * Properties *)

(** ** CLOSE *)

Ltac run_handler :=
  unfold mbind, M_bind, bind, mret, M_ret, ret, get_conn, modify_conn,
    call_Mailbox, WriteRes; cbn.

Section Close.
Context {common : Common} {B : Type}.
Implicit Types (c : @Conn _ B) (m : @backend_Mailbox _ B) (b : B)
  (tr : list (@Event _ B)) (w : @World _ B).

(** CLOSE without a mailbox answers the error and changes nothing. *)
Lemma Close_Handle_no_mailbox w :
  Mailbox (conn w) = None →
  Close_Handle w = (Val (Some ErrNoMailboxSelected), w).
Proof.
  intros Hm. unfold Close_Handle. run_handler. by rewrite Hm.
Qed.

(** CLOSE never answers without an error: it reports that no mailbox is
    selected, or it panics. *)
Lemma Close_Handle_never_succeeds w : (Close_Handle w).1 ≠ Val None.
Proof.
  unfold Close_Handle. run_handler.
  destruct (Mailbox (conn w)); cbn; discriminate.
Qed.

(** The handlers other than CLOSE never touch the state or the handle. *)
Lemma keeps_ret {A} (a : A) : keeps_selection (B := B) (mret a).
Proof. by intros w. Qed.

Lemma keeps_bind {A C} (m : @M _ B A) (k : A → @M _ B C) :
  keeps_selection m → (∀ a, keeps_selection (k a)) → keeps_selection (m ≫= k).
Proof.
  intros Hm Hk w. unfold mbind, M_bind, bind.
  destruct (Hm w) as [Hs Hh]. destruct (m w) as [[a|msg] w1]; cbn in Hs, Hh |- *.
  - destruct (Hk a w1) as [Hs1 Hh1]. by rewrite Hs1, Hh1.
  - done.
Qed.

Lemma keeps_get_conn : keeps_selection (B := B) get_conn.
Proof. by intros w. Qed.

Lemma keeps_set_silent s : keeps_selection (B := B) (modify_conn (set_silent s)).
Proof. by intros w. Qed.

Lemma keeps_WriteRes r : keeps_selection (B := B) (WriteRes r).
Proof. by intros w. Qed.

Lemma keeps_call_Mailbox {A} call (method : @backend_Mailbox _ B → B → A * B) :
  keeps_selection (call_Mailbox call method).
Proof.
  intros w. unfold call_Mailbox.
  destruct (Mailbox (conn w)) as [m|] eqn:Hm; [| done].
  by destruct (method m (backend w)).
Qed.

Ltac keeps_step :=
  first
    [ apply keeps_ret
    | apply keeps_get_conn
    | apply keeps_set_silent
    | apply keeps_WriteRes
    | apply keeps_call_Mailbox
    | apply keeps_bind; [| intros ?]
    | match goal with
      | |- keeps_selection (match ?x with _ => _ end) => destruct x
      end ].

Lemma selected_handlers_keep_selection :
  keeps_selection (B := B) Check_Handle ∧
  keeps_selection (B := B) Expunge_Handle ∧
  (∀ uid cmd, keeps_selection (B := B) (Search_handle uid cmd)) ∧
  (∀ uid cmd, keeps_selection (B := B) (Fetch_handle uid cmd)) ∧
  (∀ cmd, keeps_selection (B := B) (Fetch_UidHandle cmd)) ∧
  (∀ uid cmd, keeps_selection (B := B) (Store_handle uid cmd)) ∧
  (∀ uid cmd, keeps_selection (B := B) (Copy_handle uid cmd)).
Proof.
  assert (∀ uid cmd, keeps_selection (B := B) (Fetch_handle uid cmd)) as Hfetch.
  { intros uid cmd. unfold Fetch_handle. repeat keeps_step. }
  split_and!; intros;
    unfold Check_Handle, Expunge_Handle, Search_handle, Fetch_UidHandle,
      Store_handle, Copy_handle;
    repeat first [apply Hfetch | keeps_step].
Qed.

(** Hence they preserve the invariant of the data model. *)
Lemma selected_handlers_keep_invariant {A} (h : @M _ B A) w :
  keeps_selection h → conn_invariant (conn w) → conn_invariant (conn (h w).2).
Proof.
  intros Hkeep Hinv. destruct (Hkeep w) as [Hs Hm].
  unfold conn_invariant in *. by rewrite Hs, Hm.
Qed.

(** CLOSE with a mailbox: the handle and the read-only flag are cleared,
    then the call through the cleared handle panics. *)
Lemma Close_Handle_selected w m :
  Mailbox (conn w) = Some m →
  Close_Handle w =
  (Panic nil_dereference,
   {| conn := set_MailboxReadOnly false (set_Mailbox None (conn w));
      backend := backend w; trace := trace w |}).
Proof.
  intros Hm. unfold Close_Handle. run_handler. by rewrite Hm.
Qed.

(** C1: on a connection with a selected mailbox [m], [Close.Handle] clears
    the handle and the read-only flag and then calls [Expunge] through the
    cleared handle: it panics on the nil handle, and [Expunge] of [m] is
    never called (the trace has no new event and the backend store is as
    before). *)
Theorem Close_Handle_nil_dereference w m :
  Mailbox (conn w) = Some m →
  (Close_Handle w).1 = Panic nil_dereference ∧
  Mailbox (conn (Close_Handle w).2) = None ∧
  MailboxReadOnly (conn (Close_Handle w).2) = false ∧
  trace (Close_Handle w).2 = trace w ∧
  backend (Close_Handle w).2 = backend w ∧
  (∀ c, EvCall m CallExpunge c ∈ trace (Close_Handle w).2 →
        EvCall m CallExpunge c ∈ trace w).
Proof.
  intros Hm. rewrite (Close_Handle_selected w m Hm). cbn. by split_and!.
Qed.

(** C2: [Close.Handle] on a connection in Selected state with a mailbox
    handle, which satisfies the invariant, stops in a panic with the
    connection still in Selected state and the handle nil, so that the
    invariant is lost; and no CLOSE ever succeeds. *)
Theorem Close_Handle_breaks_invariant w m :
  State (conn w) = SelectedState →
  Mailbox (conn w) = Some m →
  conn_invariant (conn w) ∧
  (Close_Handle w).1 = Panic nil_dereference ∧
  State (conn (Close_Handle w).2) = SelectedState ∧
  Mailbox (conn (Close_Handle w).2) = None ∧
  ¬ conn_invariant (conn (Close_Handle w).2) ∧
  (∀ w0 : @World _ B, (Close_Handle w0).1 ≠ Val None).
Proof.
  intros Hs Hm. rewrite (Close_Handle_selected w m Hm). cbn.
  split_and!; try done.
  - unfold conn_invariant. rewrite Hs, Hm. done.
  - intros [Hinv _]. cbn in Hinv. by apply Hinv.
  - apply Close_Handle_never_succeeds.
Qed.

End Close.

Lemma Close_Handle_nil_dereference_witness :
  let w := demo_world (demo_conn (Some demo_INBOX) false None) [2%N; 5%N] in
  Mailbox (conn w) = Some demo_INBOX ∧
  (Close_Handle w).1 = Panic nil_dereference ∧
  trace (Close_Handle w).2 = [] ∧
  backend (Close_Handle w).2 = [2%N; 5%N].
Proof.
  intros w. split; [reflexivity |].
  destruct (Close_Handle_nil_dereference w demo_INBOX eq_refl)
    as (Hpanic & _ & _ & Htrace & Hbackend & _).
  by split_and!.
Defined.

Lemma Close_Handle_breaks_invariant_witness :
  let w := demo_world (demo_conn (Some demo_INBOX) false None) [2%N; 5%N] in
  State (conn w) = SelectedState ∧
  Mailbox (conn w) = Some demo_INBOX ∧
  conn_invariant (conn w) ∧
  ¬ conn_invariant (conn (Close_Handle w).2).
Proof.
  intros w.
  destruct (Close_Handle_breaks_invariant w demo_INBOX eq_refl eq_refl)
    as (Hbefore & _ & _ & _ & Hafter & _).
  by split_and!.
Defined.

(** ** EXPUNGE *)

Section Expunge.
Context {common : Common} {B : Type}.
Implicit Types (c : @Conn _ B) (m : @backend_Mailbox _ B) (b : B)
  (tr : list (@Event _ B)) (w : @World _ B) (seqnums : list N).

(** The countdown loop sends the first [n] numbers, last one first. *)
Lemma send_seqnums_take seqnums n :
  n ≤ length seqnums → send_seqnums seqnums n = reverse (take n seqnums).
Proof.
  induction n as [|i IH]; intros Hn; cbn [send_seqnums].
  - by rewrite take_0.
  - destruct (lookup_lt_is_Some_2 seqnums i) as [x Hx]; [lia |].
    rewrite Hx, (take_S_r _ _ _ Hx), reverse_snoc, IH by lia. done.
Qed.

Lemma send_seqnums_reverse seqnums :
  send_seqnums seqnums (length seqnums) = reverse seqnums.
Proof. by rewrite send_seqnums_take, take_ge. Qed.

(** Reversing a strictly ascending list gives a strictly descending one. *)
Lemma StronglySorted_reverse {A} (R : relation A) (l : list A) :
  StronglySorted R l → StronglySorted (flip R) (reverse l).
Proof.
  induction 1 as [|x l Hl IH Hx].
  - constructor.
  - rewrite reverse_cons. apply StronglySorted_app. split; [| split].
    + intros y z Hy Hz. apply list_elem_of_singleton in Hz as ->.
      rewrite elem_of_reverse in Hy. unfold flip.
      rewrite Forall_forall in Hx. by apply Hx.
    + done.
    + repeat constructor.
Qed.

Lemma written_app tr1 tr2 : written (tr1 ++ tr2) = written tr1 ++ written tr2.
Proof. unfold written. apply bind_app. Qed.

(** C3: on a selected, writable mailbox [m]. Without an update stream, when
    the search for [\Deleted] returns [seqnums] and the backend expunge
    succeeds, [Expunge.Handle] searches, expunges, and then writes one
    EXPUNGE response whose numbers are [seqnums] reversed, one
    [* n EXPUNGE] line per number; these are strictly descending when
    [seqnums] is strictly ascending. With an update stream, the handler
    only calls the backend expunge and writes nothing. *)
Theorem Expunge_Handle_descending w m :
  Mailbox (conn w) = Some m →
  MailboxReadOnly (conn w) = false →
  (Updates (Server (conn w)) = None →
   ∀ seqnums b1 b2,
     Mailbox_SearchMessages m false SearchCriteria_Deleted (backend w)
       = ((seqnums, None), b1) →
     Mailbox_Expunge m b1 = (None, b2) →
     Expunge_Handle w =
       (Val None,
        {| conn := conn w; backend := b2;
           trace := trace w ++
             [EvCall m (CallSearchMessages false SearchCriteria_Deleted) (conn w);
              EvCall m CallExpunge (conn w);
              EvWrite (RExpunge (reverse seqnums))] |}) ∧
     written (trace (Expunge_Handle w).2)
       = written (trace w) ++ (ExpungeLine <$> reverse seqnums) ∧
     (StronglySorted N.lt seqnums →
      StronglySorted (flip N.lt) (reverse seqnums))) ∧
  (∀ updates, Updates (Server (conn w)) = Some updates →
   ∀ err b2,
     Mailbox_Expunge m (backend w) = (err, b2) →
     Expunge_Handle w =
       (Val err,
        {| conn := conn w; backend := b2;
           trace := trace w ++ [EvCall m CallExpunge (conn w)] |}) ∧
     written (trace (Expunge_Handle w).2) = written (trace w)).
Proof.
  intros Hm Hro. split.
  - intros Hu seqnums b1 b2 Hsearch Hexp.
    assert (Expunge_Handle w =
       (Val None,
        {| conn := conn w; backend := b2;
           trace := trace w ++
             [EvCall m (CallSearchMessages false SearchCriteria_Deleted) (conn w);
              EvCall m CallExpunge (conn w);
              EvWrite (RExpunge (reverse seqnums))] |})) as Heq.
    { unfold Expunge_Handle. run_handler.
      rewrite Hm, Hro, Hu. cbn. rewrite Hm, Hsearch. cbn.
      rewrite Hm, Hexp. cbn. rewrite send_seqnums_reverse.
      by rewrite <- !app_assoc. }
    split_and!; [done | | apply StronglySorted_reverse].
    rewrite Heq. cbn [snd trace]. rewrite written_app. f_equal.
    unfold written. cbn. by rewrite app_nil_r.
  - intros updates Hu err b2 Hexp.
    assert (Expunge_Handle w =
       (Val err,
        {| conn := conn w; backend := b2;
           trace := trace w ++ [EvCall m CallExpunge (conn w)] |})) as Heq.
    { unfold Expunge_Handle. run_handler.
      rewrite Hm, Hro, Hu. cbn. rewrite Hm, Hexp. cbn.
      by destruct err. }
    split; [done |].
    rewrite Heq. cbn [snd trace]. rewrite written_app. unfold written at 2. cbn.
    by rewrite app_nil_r.
Qed.

End Expunge.

Lemma Expunge_Handle_descending_witness :
  let w0 := demo_world (demo_conn (Some demo_INBOX) false None) [2%N; 5%N; 7%N] in
  let w1 :=
    demo_world (demo_conn (Some demo_INBOX) false (Some UpdatesChannels))
      [2%N; 5%N; 7%N] in
  (Mailbox (conn w0) = Some demo_INBOX ∧ MailboxReadOnly (conn w0) = false ∧
   Updates (Server (conn w0)) = None ∧
   StronglySorted N.lt [2%N; 5%N; 7%N]) ∧
  written (trace (Expunge_Handle w0).2)
    = [ExpungeLine 7; ExpungeLine 5; ExpungeLine 2] ∧
  StronglySorted (flip N.lt) [7%N; 5%N; 2%N] ∧
  written (trace (Expunge_Handle w1).2) = [].
Proof.
  intros w0 w1.
  assert (StronglySorted N.lt [2%N; 5%N; 7%N]) as Hasc.
  { repeat constructor; reflexivity. }
  destruct (Expunge_Handle_descending w0 demo_INBOX eq_refl eq_refl) as [Hnone _].
  destruct (Hnone eq_refl [2%N; 5%N; 7%N] [2%N; 5%N; 7%N] [] eq_refl eq_refl)
    as (_ & Hw & Hdesc).
  destruct (Expunge_Handle_descending w1 demo_INBOX eq_refl eq_refl) as [_ Hsome].
  destruct (Hsome UpdatesChannels eq_refl None [] eq_refl) as [_ Hw1].
  split; [by split_and! |].
  split; [exact Hw |].
  split; [exact (Hdesc Hasc) | exact Hw1].
Defined.

(** ** The guards of the Selected-state handlers *)

Section Guards.
Context {common : Common} {B : Type}.
Implicit Types (m : @backend_Mailbox _ B) (w : @World _ B).

(** C5: a Selected-state handler run on a connection without a mailbox
    answers "No mailbox selected", and CHECK, EXPUNGE and STORE run on a
    mailbox opened read-only answer "Mailbox opened in read-only mode". In
    both cases the world is left as it was: no backend method has run (the
    trace has no new call and the backend store is the same) and nothing
    was written. *)
Theorem selected_handlers_guards w :
  (Mailbox (conn w) = None →
   let refused := (Val (Some "No mailbox selected"%string), w) in
   Check_Handle w = refused ∧
   Close_Handle w = refused ∧
   Expunge_Handle w = refused ∧
   (∀ uid cmd, Search_handle uid cmd w = refused) ∧
   (∀ uid cmd, Fetch_handle uid cmd w = refused) ∧
   (∀ cmd, Fetch_UidHandle cmd w = refused) ∧
   (∀ uid cmd, Store_handle uid cmd w = refused) ∧
   (∀ uid cmd, Copy_handle uid cmd w = refused)) ∧
  (∀ m, Mailbox (conn w) = Some m → MailboxReadOnly (conn w) = true →
   let refused := (Val (Some "Mailbox opened in read-only mode"%string), w) in
   Check_Handle w = refused ∧
   Expunge_Handle w = refused ∧
   (∀ uid cmd, Store_handle uid cmd w = refused)).
Proof.
  split.
  - intros Hm refused. subst refused.
    unfold Check_Handle, Close_Handle, Expunge_Handle, Search_handle,
      Fetch_UidHandle, Fetch_handle, Store_handle, Copy_handle.
    run_handler. rewrite Hm. by repeat split.
  - intros m Hm Hro refused. subst refused.
    unfold Check_Handle, Expunge_Handle, Store_handle.
    run_handler. rewrite Hm, Hro. by repeat split.
Qed.

End Guards.

Lemma selected_handlers_guards_witness :
  let w0 := demo_world (demo_conn None false None) [2%N] in
  let w1 := demo_world (demo_conn (Some demo_INBOX) true None) [2%N] in
  (Mailbox (conn w0) = None ∧ Close_Handle w0 = (Val (Some ErrNoMailboxSelected), w0)) ∧
  (Mailbox (conn w1) = Some demo_INBOX ∧ MailboxReadOnly (conn w1) = true ∧
   Expunge_Handle w1 = (Val (Some ErrMailboxReadOnly), w1)).
Proof.
  intros w0 w1.
  destruct (selected_handlers_guards w0) as [Hnone _].
  destruct (selected_handlers_guards w1) as [_ Hro].
  split; (split; [reflexivity |]).
  - exact (proj1 (proj2 (Hnone eq_refl))).
  - split; [reflexivity |].
    exact (proj1 (proj2 (Hro demo_INBOX eq_refl eq_refl))).
Defined.

(** ** UID FETCH *)

Section UidFetch.
Context {common : Common} {B : Type}.
Implicit Types (w : @World _ B) (items : list string).

Lemma hasUid_elem_of items : hasUid items = true ↔ "UID"%string ∈ items.
Proof.
  induction items as [|item rest IH]; cbn [hasUid].
  - split; [discriminate | by intros ?%elem_of_nil].
  - rewrite elem_of_cons. destruct (String.eqb_spec item "UID") as [->|Hne].
    + split; [by left | done].
    + rewrite IH. split; [by right | by intros [Heq|Hin]].
Qed.

Lemma hasUid_snoc items : hasUid (items ++ ["UID"%string]) = true.
Proof. apply hasUid_elem_of, elem_of_app. right. apply list_elem_of_singleton. done. Qed.

(** C7, as the code has it: [Fetch.UidHandle] runs [handle] on the
    requested items, to which it appends ["UID"] exactly when ["UID"] is
    not among them. A request that names ["UID"] once, as its last item,
    runs as the same request without it: same backend call, same output,
    same result. A request that names ["UID"] anywhere asks the backend for
    the same set of items as the request without it, in the order given. *)
Theorem Fetch_UidHandle_items :
  (∀ cmd w,
     Fetch_UidHandle cmd w =
     Fetch_handle true
       {| Fetch_SeqSet := Fetch_SeqSet cmd;
          Fetch_Items := if bool_decide ("UID"%string ∈ Fetch_Items cmd)
                         then Fetch_Items cmd
                         else Fetch_Items cmd ++ ["UID"%string] |} w) ∧
  (∀ seqset items w,
     "UID"%string ∉ items →
     Fetch_UidHandle {| Fetch_SeqSet := seqset; Fetch_Items := items ++ ["UID"%string] |} w
     = Fetch_UidHandle {| Fetch_SeqSet := seqset; Fetch_Items := items |} w) ∧
  (∀ items item,
     "UID"%string ∈ items →
     item ∈ items ↔ item ∈ filter (λ i, i ≠ "UID"%string) items ++ ["UID"%string]).
Proof.
  split_and!.
  - intros [seqset items] w. unfold Fetch_UidHandle. cbn.
    case_bool_decide as Huid.
    + apply hasUid_elem_of in Huid. by rewrite Huid.
    + destruct (hasUid items) eqn:Hhas; [| done].
      by apply hasUid_elem_of in Hhas.
  - intros seqset items w Huid. unfold Fetch_UidHandle. cbn.
    rewrite hasUid_snoc. cbn.
    destruct (hasUid items) eqn:Hhas; [| done].
    by apply hasUid_elem_of in Hhas.
  - intros items item Huid. rewrite elem_of_app, list_elem_of_filter, list_elem_of_singleton.
    destruct (decide (item = "UID"%string)) as [->|Hne].
    + split; [by right | done].
    + split; [by left | by intros [[_ Hin]|Heq]].
Qed.

End UidFetch.

(** On INBOX, which lists its message with the items in the order asked,
    UID FETCH of (UID FLAGS) and UID FETCH of (FLAGS) write different
    responses: the first has UID before FLAGS, the second FLAGS before
    UID. *)
Lemma Fetch_UidHandle_output_differs :
  let w := demo_world (demo_conn (Some demo_INBOX) false None) [] in
  "UID"%string ∈ ["UID"; "FLAGS"]%string ∧
  (written (trace (Fetch_UidHandle
                     {| Fetch_SeqSet := "1:3"%string;
                        Fetch_Items := ["UID"; "FLAGS"]%string |} w).2)
   ≠ written (trace (Fetch_UidHandle
                       {| Fetch_SeqSet := "1:3"%string;
                          Fetch_Items := ["FLAGS"]%string |} w).2)).
Proof.
  split; [apply list_elem_of_here |].
  vm_compute. discriminate.
Qed.

Lemma Fetch_UidHandle_items_witness :
  let w := demo_world (demo_conn (Some demo_INBOX) false None) [] in
  ("UID"%string ∉ ["FLAGS"]%string) ∧
  Fetch_UidHandle {| Fetch_SeqSet := "1:3"%string;
                     Fetch_Items := ["FLAGS"; "UID"]%string |} w
  = Fetch_UidHandle {| Fetch_SeqSet := "1:3"%string;
                       Fetch_Items := ["FLAGS"]%string |} w.
Proof.
  intros w.
  assert ("UID"%string ∉ ["FLAGS"]%string) as Hnot.
  { intros Hin. apply list_elem_of_singleton in Hin. discriminate. }
  split; [exact Hnot |].
  exact (proj1 (proj2 Fetch_UidHandle_items) "1:3"%string ["FLAGS"]%string w Hnot).
Defined.

(** ** STORE *)

Section StoreFlags.
Context {common : Common} {B : Type}.
Implicit Types (m : @backend_Mailbox _ B) (w : @World _ B).

Lemma set_silent_set_silent s s' (c : @Conn _ B) :
  set_silent s (set_silent s' c) = set_silent s c.
Proof. reflexivity. Qed.

(** What STORE does once its arguments are accepted: the flag mutation
    under the scoped [silent] flag, then the FETCH it may synthesize. *)
Lemma Store_handle_accepted uid cmd w m flagsList flags :
  Mailbox (conn w) = Some m →
  MailboxReadOnly (conn w) = false →
  let silent := HasSuffix (Store_Item cmd) SilentOp in
  let item := if silent then TrimSuffix (Store_Item cmd) SilentOp
              else Store_Item cmd in
  item ∈ [SetFlags; AddFlags; RemoveFlags] →
  Store_Value cmd = FList flagsList →
  ParseStringList flagsList = (flags, None) →
  let '(err, b1) :=
    Mailbox_UpdateMessagesFlags m uid (Store_SeqSet cmd) item flags (backend w) in
  let w1 :=
    {| conn := set_silent false (conn w); backend := b1;
       trace := trace w ++
         [EvCall m (CallUpdateMessagesFlags uid (Store_SeqSet cmd) item flags)
            (set_silent silent (conn w))] |} in
  Store_handle uid cmd w =
  match err, Updates (Server (conn w)), silent with
  | Some e, _, _ => (Val (Some e), w1)
  | None, None, false =>
      Fetch_handle uid
        {| Fetch_SeqSet := Store_SeqSet cmd;
           Fetch_Items := if uid then ["FLAGS"; "UID"]%string
                          else ["FLAGS"]%string |} w1
  | None, _, _ => (Val None, w1)
  end.
Proof.
  intros Hm Hro silent item Hitem Hval Hparse.
  destruct (Mailbox_UpdateMessagesFlags m uid (Store_SeqSet cmd) item flags
              (backend w)) as [err b1] eqn:Hupd.
  assert (negb (String.eqb item SetFlags) && negb (String.eqb item AddFlags)
          && negb (String.eqb item RemoveFlags) = false) as Hop.
  { rewrite !elem_of_cons in Hitem.
    destruct Hitem as [-> | [-> | [-> | Hnil]]]; [done.. |].
    by apply elem_of_nil in Hnil. }
  unfold Store_handle. run_handler. rewrite Hm, Hro.
  fold silent. fold item. rewrite Hop. cbn. rewrite Hval, Hparse. cbn.
  rewrite Hm, Hupd. cbn. rewrite set_silent_set_silent.
  destruct err as [e|]; [done |].
  destruct (Updates (Server (conn w))) eqn:Hu; cbn; rewrite Hu; cbn; [done |].
  destruct silent; cbn; [done |].
  unfold Fetch_handle. run_handler. rewrite Hm.
  destruct uid; cbn; rewrite Hm;
    match goal with
    | |- context [Mailbox_ListMessages ?mb ?u ?set ?items ?b] =>
        destruct (Mailbox_ListMessages mb u set items b) as [[ch lerr] b2]
    end; cbn; by destruct lerr.
Qed.

(** FETCH on a selected mailbox: the backend lists the messages and the
    writer writes them. *)
Lemma Fetch_handle_selected uid cmd w m :
  Mailbox (conn w) = Some m →
  Fetch_handle uid cmd w =
  let '((ch, err), b') :=
    Mailbox_ListMessages m uid (Fetch_SeqSet cmd) (Fetch_Items cmd) (backend w) in
  (Val err,
   {| conn := conn w; backend := b';
      trace := trace w ++
        [EvCall m (CallListMessages uid (Fetch_SeqSet cmd) (Fetch_Items cmd)) (conn w);
         EvWrite (RFetch ch)] |}).
Proof.
  intros Hm. unfold Fetch_handle. run_handler. rewrite Hm. cbn. rewrite Hm.
  destruct (Mailbox_ListMessages m uid (Fetch_SeqSet cmd) (Fetch_Items cmd)
              (backend w)) as [[ch err] b'].
  destruct err; cbn; by rewrite <- app_assoc.
Qed.

(** C8: once STORE has accepted its arguments, the trace it adds starts
    with the call of [UpdateMessagesFlags], made while the connection's
    [silent] flag is whether the item ended in [.SILENT] and every other
    field is as the handler found it; no later event is such a call. When
    the handler is over, whatever the backend answered, [silent] is false
    and every other field of the connection is as the handler found it. *)
Theorem Store_handle_silent_scope uid cmd w m flagsList flags :
  Mailbox (conn w) = Some m →
  MailboxReadOnly (conn w) = false →
  let sil := HasSuffix (Store_Item cmd) SilentOp in
  let item := if sil then TrimSuffix (Store_Item cmd) SilentOp
              else Store_Item cmd in
  item ∈ [SetFlags; AddFlags; RemoveFlags] →
  Store_Value cmd = FList flagsList →
  ParseStringList flagsList = (flags, None) →
  let w' := (Store_handle uid cmd w).2 in
  (∃ during rest,
     trace w' = trace w ++
       EvCall m (CallUpdateMessagesFlags uid (Store_SeqSet cmd) item flags) during
       :: rest ∧
     silent during = sil ∧
     during = set_silent sil (conn w) ∧
     Forall (λ e, is_UpdateMessagesFlags e = false) rest) ∧
  conn w' = set_silent false (conn w) ∧
  silent (conn w') = false ∧
  State (conn w') = State (conn w) ∧
  User (conn w') = User (conn w) ∧
  Mailbox (conn w') = Mailbox (conn w) ∧
  MailboxReadOnly (conn w') = MailboxReadOnly (conn w) ∧
  Server (conn w') = Server (conn w).
Proof.
  intros Hm Hro sil item Hitem Hval Hparse w'.
  pose proof (Store_handle_accepted uid cmd w m flagsList flags Hm Hro Hitem
                Hval Hparse) as Hrun.
  fold sil item in Hrun.
  destruct (Mailbox_UpdateMessagesFlags m uid (Store_SeqSet cmd) item flags
              (backend w)) as [err b1].
  assert ((∃ rest,
             trace w' = trace w ++
               EvCall m (CallUpdateMessagesFlags uid (Store_SeqSet cmd) item flags)
                 (set_silent sil (conn w)) :: rest ∧
             Forall (λ e, is_UpdateMessagesFlags e = false) rest) ∧
          conn w' = set_silent false (conn w)) as [(rest & Htr & Hrest) Hconn].
  { subst w'. destruct err as [e|].
    - rewrite Hrun. cbn. split; [| done]. exists []. by split.
    - destruct (Updates (Server (conn w))) as [u|].
      + rewrite Hrun. cbn. split; [| done]. exists []. by split.
      + destruct sil.
        * rewrite Hrun. cbn. split; [| done]. exists []. by split.
        * rewrite Hrun, (Fetch_handle_selected _ _ _ m) by exact Hm. cbn.
          destruct (Mailbox_ListMessages m uid (Store_SeqSet cmd) _ b1)
            as [[ch lerr] b2].
          cbn. split; [| done]. eexists. split.
          -- rewrite <- app_assoc. cbn. reflexivity.
          -- by repeat constructor. }
  split.
  - exists (set_silent sil (conn w)), rest. by split_and!.
  - rewrite Hconn. by split_and!.
Qed.

(** C9: after a flag mutation that the backend accepted, STORE on an item
    without [.SILENT] and a server without update stream goes on as FETCH
    of the same sequence set with the items FLAGS, and UID for UID STORE:
    the backend lists these and they are written. With [.SILENT], or with
    an update stream, STORE ends there: nothing is listed or written. *)
Theorem Store_handle_synthesizes_fetch uid cmd w m flagsList flags b1 :
  Mailbox (conn w) = Some m →
  MailboxReadOnly (conn w) = false →
  let sil := HasSuffix (Store_Item cmd) SilentOp in
  let item := if sil then TrimSuffix (Store_Item cmd) SilentOp
              else Store_Item cmd in
  item ∈ [SetFlags; AddFlags; RemoveFlags] →
  Store_Value cmd = FList flagsList →
  ParseStringList flagsList = (flags, None) →
  Mailbox_UpdateMessagesFlags m uid (Store_SeqSet cmd) item flags (backend w)
    = (None, b1) →
  let w1 :=
    {| conn := set_silent false (conn w); backend := b1;
       trace := trace w ++
         [EvCall m (CallUpdateMessagesFlags uid (Store_SeqSet cmd) item flags)
            (set_silent sil (conn w))] |} in
  let items := if uid then ["FLAGS"; "UID"]%string else ["FLAGS"]%string in
  (sil = false → Updates (Server (conn w)) = None →
   Store_handle uid cmd w
     = Fetch_handle uid {| Fetch_SeqSet := Store_SeqSet cmd; Fetch_Items := items |} w1 ∧
   ∃ ch err b2,
     Mailbox_ListMessages m uid (Store_SeqSet cmd) items b1 = ((ch, err), b2) ∧
     Store_handle uid cmd w =
       (Val err,
        {| conn := conn w1; backend := b2;
           trace := trace w1 ++
             [EvCall m (CallListMessages uid (Store_SeqSet cmd) items) (conn w1);
              EvWrite (RFetch ch)] |})) ∧
  (sil = true ∨ Updates (Server (conn w)) ≠ None →
   Store_handle uid cmd w = (Val None, w1)).
Proof.
  intros Hm Hro sil item Hitem Hval Hparse Hupd w1 items.
  pose proof (Store_handle_accepted uid cmd w m flagsList flags Hm Hro Hitem
                Hval Hparse) as Hrun.
  fold sil item in Hrun. rewrite Hupd in Hrun. fold w1 items in Hrun.
  split.
  - intros Hsil Hu. rewrite Hsil, Hu in Hrun. split; [exact Hrun |].
    rewrite Hrun, (Fetch_handle_selected _ _ _ m) by exact Hm. cbn.
    destruct (Mailbox_ListMessages m uid (Store_SeqSet cmd) items b1)
      as [[ch err] b2].
    by exists ch, err, b2.
  - intros [Hsil | Hu].
    + rewrite Hsil in Hrun. rewrite Hrun. by destruct (Updates (Server (conn w))).
    + rewrite Hrun. destruct (Updates (Server (conn w))); [done |]. by destruct Hu.
Qed.

End StoreFlags.

Example HasSuffix_silent : HasSuffix "+FLAGS.SILENT" SilentOp = true.
Proof. reflexivity. Qed.

Example TrimSuffix_silent : TrimSuffix "+FLAGS.SILENT" SilentOp = "+FLAGS"%string.
Proof. reflexivity. Qed.

Example HasSuffix_short : HasSuffix "FLAGS" SilentOp = false.
Proof. reflexivity. Qed.

Example TrimSuffix_absent : TrimSuffix "-FLAGS" SilentOp = "-FLAGS"%string.
Proof. reflexivity. Qed.

Lemma Store_handle_silent_scope_witness :
  let w := demo_world (demo_conn (Some demo_INBOX) false (Some UpdatesChannels)) [] in
  let failing := demo_world (demo_conn (Some demo_broken) false None) [] in
  (Mailbox (conn w) = Some demo_INBOX ∧ MailboxReadOnly (conn w) = false ∧
   AddFlags ∈ [SetFlags; AddFlags; RemoveFlags]) ∧
  (∃ during rest,
     trace (Store_handle false demo_store_silent w).2 = trace w ++
       EvCall demo_INBOX
         (CallUpdateMessagesFlags false "1:3"%string AddFlags ["\Seen"%string]) during
       :: rest ∧
     silent during = true ∧
     during = set_silent true (conn w) ∧
     Forall (λ e, is_UpdateMessagesFlags e = false) rest) ∧
  conn (Store_handle false demo_store_silent w).2 = set_silent false (conn w) ∧
  (Store_handle false demo_store_silent failing).1 = Val (Some "backend failure"%string) ∧
  silent (conn (Store_handle false demo_store_silent failing).2) = false.
Proof.
  intros w failing.
  assert (AddFlags ∈ [SetFlags; AddFlags; RemoveFlags]) as Hitem.
  { apply list_elem_of_further, list_elem_of_here. }
  pose proof (Store_handle_silent_scope false demo_store_silent w demo_INBOX
                [FString "\Seen"] ["\Seen"%string] eq_refl eq_refl Hitem
                eq_refl eq_refl) as (Hcall & Hconn & _).
  pose proof (Store_handle_silent_scope false demo_store_silent failing demo_broken
                [FString "\Seen"] ["\Seen"%string] eq_refl eq_refl Hitem
                eq_refl eq_refl) as (_ & _ & Hsilent & _).
  split; [by split_and! |].
  split; [exact Hcall |].
  split; [exact Hconn |].
  split; [reflexivity | exact Hsilent].
Defined.

Lemma Store_handle_synthesizes_fetch_witness :
  let w := demo_world (demo_conn (Some demo_INBOX) false None) [] in
  let w1 := demo_world (demo_conn (Some demo_INBOX) false (Some UpdatesChannels)) [] in
  (Mailbox (conn w) = Some demo_INBOX ∧ MailboxReadOnly (conn w) = false ∧
   SetFlags ∈ [SetFlags; AddFlags; RemoveFlags] ∧
   Updates (Server (conn w)) = None ∧
   Updates (Server (conn w1)) ≠ None) ∧
  written (trace (Store_handle true demo_store_loud w).2)
    = [FetchLine {| Message_SeqNum := 1; Message_Items := ["FLAGS"; "UID"]%string;
                    Message_Uid := 10; Message_Flags := ["\Seen"%string];
                    Message_Size := 4242 |}] ∧
  written (trace (Store_handle true demo_store_silent w).2) = [] ∧
  written (trace (Store_handle true demo_store_loud w1).2) = [].
Proof.
  intros w w1.
  assert (SetFlags ∈ [SetFlags; AddFlags; RemoveFlags]) as Hset.
  { apply list_elem_of_here. }
  assert (AddFlags ∈ [SetFlags; AddFlags; RemoveFlags]) as Hadd.
  { apply list_elem_of_further, list_elem_of_here. }
  assert (Updates (Server (conn w1)) ≠ None) as Hu1 by discriminate.
  split; [by split_and! |].
  split_and!.
  - destruct (Store_handle_synthesizes_fetch true demo_store_loud w demo_INBOX
                [FString "\Seen"] ["\Seen"%string] [] eq_refl eq_refl Hset
                eq_refl eq_refl eq_refl) as [Hfetch _].
    destruct (Hfetch eq_refl eq_refl) as [_ (ch & err & b2 & Hlist & Hrun)].
    rewrite Hrun. injection Hlist as <- <- <-. reflexivity.
  - destruct (Store_handle_synthesizes_fetch true demo_store_silent w demo_INBOX
                [FString "\Seen"] ["\Seen"%string] [] eq_refl eq_refl Hadd
                eq_refl eq_refl eq_refl) as [_ Hnone].
    rewrite (Hnone (or_introl eq_refl)). reflexivity.
  - destruct (Store_handle_synthesizes_fetch true demo_store_loud w1 demo_INBOX
                [FString "\Seen"] ["\Seen"%string] [] eq_refl eq_refl Hset
                eq_refl eq_refl eq_refl) as [_ Hnone].
    rewrite (Hnone (or_intror Hu1)). reflexivity.
Defined.

(** ** Dispatch *)

Section Dispatch.
Context {common : Common} {B : Type}.
Implicit Types (s : @Server_ _ B) (w : @World _ B) (cmd : Command).

(** The turn of the loop for a line that parses as [cmd]. *)
Lemma handleConn_line_parsed s fields cmd w :
  Command_Parse fields = (cmd, None) →
  handleConn_line s fields w =
  match handleCommand s cmd w with
  | (Val (_, Some e), w') => (Val tt, wrote (tagged cmd BAD e) w')
  | (Val (Some r, None), w') => (Val tt, wrote r w')
  | (Val (None, None), w') => (Panic nil_dereference, w')
  | (Panic msg, w') => (Panic msg, w')
  end.
Proof.
  intros Hline. unfold handleConn_line. rewrite Hline. run_handler.
  destruct (handleCommand s cmd w) as [[[res [e|]]|msg] w']; cbn;
    [by destruct res | by destruct res | done].
Qed.

(** C4: a line that parses as the command [cmd] is answered by one tagged
    status with the tag of [cmd]: OK and [<NAME> completed] when the name is
    registered, the arguments parse and the handler returns no error; NO
    and the handler's message when the handler returns an error; BAD and
    the message when the name is not registered or the arguments do not
    parse, in which case the handler has not run. *)
Theorem handleConn_line_status s fields cmd w :
  Command_Parse fields = (cmd, None) →
  (∀ (newHandler : HandlerFactory) w',
     commands s !! Name cmd = Some newHandler →
     Parse (newHandler ()) (Arguments cmd) = None →
     Handle (newHandler ()) (Arguments cmd) w = (Val None, w') →
     handleCommand s cmd w
       = (Val (Some (tagged cmd OK (Name cmd ++ " completed")%string), None), w') ∧
     handleConn_line s fields w
       = (Val tt, wrote (tagged cmd OK (Name cmd ++ " completed")%string) w')) ∧
  (∀ (newHandler : HandlerFactory) e w',
     commands s !! Name cmd = Some newHandler →
     Parse (newHandler ()) (Arguments cmd) = None →
     Handle (newHandler ()) (Arguments cmd) w = (Val (Some e), w') →
     handleCommand s cmd w = (Val (Some (tagged cmd NO e), None), w') ∧
     handleConn_line s fields w = (Val tt, wrote (tagged cmd NO e) w')) ∧
  (commands s !! Name cmd = None →
   handleCommand s cmd w = (Val (None, Some "Unknown command"%string), w) ∧
   handleConn_line s fields w
     = (Val tt, wrote (tagged cmd BAD "Unknown command") w)) ∧
  (∀ (newHandler : HandlerFactory) e,
     commands s !! Name cmd = Some newHandler →
     Parse (newHandler ()) (Arguments cmd) = Some e →
     handleCommand s cmd w = (Val (None, Some e), w) ∧
     handleConn_line s fields w = (Val tt, wrote (tagged cmd BAD e) w)).
Proof.
  intros Hline. rewrite (handleConn_line_parsed s fields cmd w Hline).
  unfold handleCommand, getCommandHandler. split_and!.
  - intros newHandler w' Hreg Hparse Hrun.
    rewrite Hreg, Hparse. run_handler. by rewrite Hrun.
  - intros newHandler e w' Hreg Hparse Hrun.
    rewrite Hreg, Hparse. run_handler. by rewrite Hrun.
  - intros Hreg. by rewrite Hreg.
  - intros newHandler e Hreg Hparse. by rewrite Hreg, Hparse.
Qed.


End Dispatch.

Lemma handleConn_line_status_witness :
  let selected := demo_world (demo_conn (Some demo_INBOX) false (Some UpdatesChannels)) [] in
  let idle := demo_world (demo_conn None false None) [] in
  let line name args := FString "a1" :: FString name :: args in
  written (trace (handleConn_line demo_server (line "CHECK"%string []) selected).2)
    = [StatusLine {| StatusResp_Tag := "a1"; StatusResp_Type := OK;
                     StatusResp_Info := "CHECK completed" |}] ∧
  written (trace (handleConn_line demo_server (line "CHECK"%string []) idle).2)
    = [StatusLine {| StatusResp_Tag := "a1"; StatusResp_Type := NO;
                     StatusResp_Info := "No mailbox selected" |}] ∧
  written (trace (handleConn_line demo_server (line "FROB"%string []) selected).2)
    = [StatusLine {| StatusResp_Tag := "a1"; StatusResp_Type := BAD;
                     StatusResp_Info := "Unknown command" |}] ∧
  written (trace (handleConn_line demo_server (line "CHECK"%string [FNil]) selected).2)
    = [StatusLine {| StatusResp_Tag := "a1"; StatusResp_Type := BAD;
                     StatusResp_Info := "Too many arguments" |}].
Proof.
  intros selected idle line.
  split_and!.
  - destruct (handleConn_line_status demo_server (line "CHECK"%string []) _ selected
                eq_refl) as (Hok & _).
    destruct (Hok _ _ eq_refl eq_refl eq_refl) as [_ Hres].
    rewrite Hres. reflexivity.
  - destruct (handleConn_line_status demo_server (line "CHECK"%string []) _ idle
                eq_refl) as (_ & Hno & _).
    destruct (Hno _ _ _ eq_refl eq_refl eq_refl) as [_ Hres].
    rewrite Hres. reflexivity.
  - destruct (handleConn_line_status demo_server (line "FROB"%string []) _ selected
                eq_refl) as (_ & _ & Hunknown & _).
    destruct (Hunknown eq_refl) as [_ Hres].
    rewrite Hres. reflexivity.
  - destruct (handleConn_line_status demo_server (line "CHECK"%string [FNil]) _ selected
                eq_refl) as (_ & _ & _ & Hbad).
    destruct (Hbad _ _ eq_refl eq_refl) as [_ Hres].
    rewrite Hres. reflexivity.
Defined.

(** ** Update fan-out *)

Section FanOut.
Context {common : Common} {B : Type}.
Implicit Types (s : @Server_ _ B) (conn : @Conn _ B) (res : @Response _)
  (update : backend_Update).

(** The test that the loop makes on a filter field [wanted] against what
    the connection has. *)
Lemma filter_test (wanted : string) (has : option string) :
  negb (String.eqb wanted "") &&
    match has with
    | None => true
    | Some name => negb (String.eqb name wanted)
    end = false
  ↔ wanted = ""%string ∨ has = Some wanted.
Proof.
  destruct (String.eqb_spec wanted "") as [Hw|Hw]; cbn [negb andb].
  - split; [by left | done].
  - destruct has as [name|].
    + destruct (String.eqb_spec name wanted) as [->|Hn]; cbn [negb].
      * split; [by right | done].
      * split; [done |]. intros [? | [= ?]]; done.
    + split; [done |]. by intros [? | ?].
Qed.

Lemma listenUpdates_writes_receives update res conn :
  listenUpdates_writes update res conn = true ↔ receives update res conn.
Proof.
  unfold listenUpdates_writes, receives.
  pose proof (filter_test (Update_Username update) (User_Username <$> User conn))
    as Huser.
  pose proof (filter_test (Update_Mailbox update) (Mailbox_Name <$> Mailbox conn))
    as Hmbox.
  assert (∀ (A : Type) (name : A → string) (o : option A) wanted,
            name <$> o = Some wanted ↔ ∃ a, o = Some a ∧ name a = wanted) as Hsome.
  { intros A name [a|] wanted; cbn; split.
    - intros [= <-]. by exists a.
    - by intros (a' & [= <-] & <-).
    - done.
    - by intros (a' & ? & _). }
  rewrite !Hsome in Huser, Hmbox. rewrite <- Huser, <- Hmbox.
  destruct (User conn) as [user|], (Mailbox conn) as [mbox|]; cbn [fmap option_fmap option_map];
    destruct (negb _ && _); try (split; [done | by intros (? & ? & ?)]);
    destruct (negb _ && _); try (split; [done | by intros (? & ? & ?)]);
    destruct (silent conn), (is_Fetch res); split; try done;
    try (intros (_ & _ & Hs); by destruct Hs);
    intros _; split_and!; try done; by intros [? ?].
Qed.

(** The loop writes the buffer, and nothing else, to the connections that
    pass the tests, each identified by its index in [s.conns]. *)
Lemma listenUpdates_range_elem_of update res b k (conns : list (@Conn _ B)) j b' :
  (j, b') ∈ listenUpdates_range update res b k conns ↔
  b' = b ∧ k ≤ j ∧
  ∃ conn, conns !! (j - k) = Some conn ∧ listenUpdates_writes update res conn = true.
Proof.
  revert k. induction conns as [|conn rest IH]; intros k; cbn [listenUpdates_range].
  - split; [by intros ?%elem_of_nil | by intros (_ & _ & conn & ? & _)].
  - assert ((j, b') ∈ listenUpdates_range update res b (S k) rest ↔
            b' = b ∧ k < j ∧
            ∃ conn', (conn :: rest) !! (j - k) = Some conn' ∧
                     listenUpdates_writes update res conn' = true) as Hrest.
    { rewrite IH. split.
      - intros (-> & Hk & conn' & Hlook & Hw). split_and!; [done | lia |].
        exists conn'. split; [| done].
        replace (j - k) with (S (j - S k)) by lia. done.
      - intros (-> & Hk & conn' & Hlook & Hw). split_and!; [done | lia |].
        exists conn'. split; [| done].
        replace (j - k) with (S (j - S k)) in Hlook by lia. done. }
    destruct (listenUpdates_writes update res conn) eqn:Hconn.
    + rewrite elem_of_cons, Hrest. split.
      * intros [[= -> ->] | (-> & Hk & Hex)].
        -- split_and!; [done | lia |]. exists conn.
           by rewrite Nat.sub_diag.
        -- split_and!; [done | lia | done].
      * intros (-> & Hk & conn' & Hlook & Hw).
        destruct (decide (j = k)) as [-> | Hne]; [by left |].
        right. split_and!; [done | lia |]. by exists conn'.
    + rewrite Hrest. split.
      * intros (-> & Hk & Hex). split_and!; [done | lia | done].
      * intros (-> & Hk & conn' & Hlook & Hw).
        destruct (decide (j = k)) as [-> | Hne].
        -- rewrite Nat.sub_diag in Hlook. cbn in Hlook.
           injection Hlook as <-. congruence.
        -- split_and!; [done | lia |]. by exists conn'.
Qed.

(** C6: when an update comes through the fan-out, the serialized bytes of
    its response are written to the connection of index [i] if and only
    if the update's user name is empty or is the name of the connection's
    user, and the update's mailbox is empty or is the name of the
    connection's mailbox, and it is not the case that the connection is
    silent and the response a FETCH; and nothing but these bytes is
    written. *)
Theorem listenUpdates_delivery WriteTo s update res i conn :
  conns s !! i = Some conn →
  ((i, WriteTo res) ∈ listenUpdates_update WriteTo s update res ↔
   (Update_Username update = ""%string ∨
    ∃ user, User conn = Some user ∧ User_Username user = Update_Username update) ∧
   (Update_Mailbox update = ""%string ∨
    ∃ mbox, Mailbox conn = Some mbox ∧ Mailbox_Name mbox = Update_Mailbox update) ∧
   ¬ (silent conn = true ∧ is_Fetch res = true)) ∧
  (∀ j b, (j, b) ∈ listenUpdates_update WriteTo s update res → b = WriteTo res).
Proof.
  intros Hi. unfold listenUpdates_update. split.
  - rewrite listenUpdates_range_elem_of, Nat.sub_0_r.
    fold (receives update res conn).
    rewrite <- listenUpdates_writes_receives. split.
    + intros (_ & _ & conn' & Hlook & Hw). congruence.
    + intros Hw. split_and!; [done | lia |]. by exists conn.
  - intros j b Hin. by apply listenUpdates_range_elem_of in Hin as (-> & _).
Qed.

End FanOut.

Lemma listenUpdates_delivery_witness :
  let update := {| Update_Username := "alice"; Update_Mailbox := "INBOX" |} in
  let res := RExpunge [3%N] in
  conns demo_fanout_server !! 0 = Some (demo_conn (Some demo_INBOX) false (Some UpdatesChannels)) ∧
  conns demo_fanout_server !! 1 = Some demo_anonymous ∧
  (0, demo_WriteTo res) ∈ listenUpdates_update demo_WriteTo demo_fanout_server update res ∧
  (1, demo_WriteTo res) ∉ listenUpdates_update demo_WriteTo demo_fanout_server update res.
Proof.
  intros update res.
  split; [reflexivity |]. split; [reflexivity |]. split.
  - apply (proj1 (listenUpdates_delivery demo_WriteTo demo_fanout_server update res 0
                    _ eq_refl)).
    split_and!.
    + right. by exists {| User_Username := "alice" |}.
    + right. by exists demo_INBOX.
    + by intros [? ?].
  - intros Hin.
    apply (proj1 (listenUpdates_delivery demo_WriteTo demo_fanout_server update res 1
                    _ eq_refl)) in Hin as ([Hw | (user & Hu & _)] & _); discriminate.
Defined.

(** ** The client's LOGOUT *)

Section ClientLogout.
Context {T : Type}.
Implicit Types (c : @Client.Client T).

(** C10: [Logout] on a client in Logout state answers "Already logged out"
    and leaves the client as it was: nothing has been executed. In any
    other state it executes one LOGOUT command; it answers the error of
    the execution if there is one, otherwise the [Err] of the final status,
    and no error when there is no final status. *)
Theorem Client_Logout_spec run c :
  (Client.State c = LogoutState →
   Client.Logout run c = (Some "Already logged out"%string, c)) ∧
  (Client.State c ≠ LogoutState →
   ∀ status err c',
     Client.execute run Client.Logout_ c = ((status, err), c') →
     Client.executed c' = Client.executed c ++ [Client.Logout_] ∧
     Client.Logout run c =
       (match err, status with
        | Some e, _ => Some e
        | None, Some status => Client.StatusResp_Err status
        | None, None => None
        end, c')).
Proof.
  unfold Client.Logout. split.
  - intros Hs. by rewrite decide_True.
  - intros Hs status err c' Hexec. rewrite decide_False by done.
    rewrite Hexec. split.
    + unfold Client.execute in Hexec. destruct (run Client.Logout_ c) as [answer c0].
      by injection Hexec as _ <-.
    + by destruct err, status.
Qed.

End ClientLogout.

Lemma Client_Logout_spec_witness :
  (Client.State (demo_client LogoutState) = LogoutState ∧
   Client.Logout demo_run (demo_client LogoutState)
     = (Some "Already logged out"%string, demo_client LogoutState)) ∧
  (Client.State (demo_client SelectedState) ≠ LogoutState ∧
   (Client.Logout demo_run (demo_client SelectedState)).1 = Some "Not now"%string ∧
   Client.executed (Client.Logout demo_run (demo_client SelectedState)).2
     = [Client.Logout_]).
Proof.
  assert (Client.State (demo_client SelectedState) ≠ LogoutState) as Hs by discriminate.
  split.
  - split; [reflexivity |].
    exact (proj1 (Client_Logout_spec demo_run (demo_client LogoutState)) eq_refl).
  - split; [exact Hs |].
    destruct (proj2 (Client_Logout_spec demo_run (demo_client SelectedState)) Hs
                _ _ _ eq_refl) as [Hexec Hout].
    rewrite Hout. split; [reflexivity | exact Hexec].
Defined.

(** * Further properties of the handlers *)

Section HandlersMore.
Context {common : Common} {B : Type}.
Implicit Types (m : @backend_Mailbox _ B) (w : @World _ B) (b : B).

#[local] Arguments written : simpl never.
#[local] Arguments backend_calls : simpl never.

Lemma backend_calls_app (tr1 tr2 : list (@Event _ B)) :
  backend_calls (tr1 ++ tr2) = backend_calls tr1 ++ backend_calls tr2.
Proof. unfold backend_calls. apply bind_app. Qed.

Lemma written_snoc_call (tr : list (@Event _ B)) m call c :
  written (tr ++ [EvCall m call c]) = written tr.
Proof. rewrite written_app. unfold written at 2. cbn. by rewrite app_nil_r. Qed.



(** SEARCH, FETCH and COPY do not look at the read-only flag: on a
    mailbox opened read-only they return the same result, leave the same
    backend store, make the same backend calls and write the same lines
    as on the mailbox opened for writing. *)
Theorem readers_ignore_MailboxReadOnly ro w :
  let same {A} (h : @M _ B A) :=
    (h (with_MailboxReadOnly ro w)).1 = (h w).1 ∧
    backend (h (with_MailboxReadOnly ro w)).2 = backend (h w).2 ∧
    backend_calls (trace (h (with_MailboxReadOnly ro w)).2)
      = backend_calls (trace (h w).2) ∧
    written (trace (h (with_MailboxReadOnly ro w)).2) = written (trace (h w).2) in
  (∀ uid cmd, same (Search_handle uid cmd)) ∧
  (∀ uid cmd, same (Fetch_handle uid cmd)) ∧
  (∀ cmd, same (Fetch_UidHandle cmd)) ∧
  (∀ uid cmd, same (Copy_handle uid cmd)).
Proof.
  assert (∀ uid cmd,
    (Fetch_handle uid cmd (with_MailboxReadOnly ro w)).1 = (Fetch_handle uid cmd w).1 ∧
    backend (Fetch_handle uid cmd (with_MailboxReadOnly ro w)).2
      = backend (Fetch_handle uid cmd w).2 ∧
    backend_calls (trace (Fetch_handle uid cmd (with_MailboxReadOnly ro w)).2)
      = backend_calls (trace (Fetch_handle uid cmd w).2) ∧
    written (trace (Fetch_handle uid cmd (with_MailboxReadOnly ro w)).2)
      = written (trace (Fetch_handle uid cmd w).2)) as Hfetch.
  { intros uid cmd. unfold Fetch_handle. run_handler.
    destruct (Mailbox (conn w)) as [m|] eqn:Hm; cbn; [| done].
    rewrite Hm.
    destruct (Mailbox_ListMessages m uid (Fetch_SeqSet cmd) (Fetch_Items cmd)
                (backend w)) as [[ch err] b'].
    destruct err; cbn;
      rewrite !backend_calls_app, !written_app; by split_and!. }
  intros same. subst same. cbn beta. split_and!.
  - intros uid cmd. unfold Search_handle. run_handler.
    destruct (Mailbox (conn w)) as [m|] eqn:Hm; cbn; [| done].
    rewrite Hm.
    destruct (Mailbox_SearchMessages m uid (Search_Criteria cmd) (backend w))
      as [[ids err] b'].
    destruct err; cbn;
      rewrite ?backend_calls_app, ?written_app; by split_and!.
  - exact Hfetch.
  - intros cmd. unfold Fetch_UidHandle. apply Hfetch.
  - intros uid cmd. unfold Copy_handle. run_handler.
    destruct (Mailbox (conn w)) as [m|] eqn:Hm; cbn; [| done].
    rewrite Hm.
    destruct (Mailbox_CopyMessages m uid (Copy_SeqSet cmd) (Copy_Mailbox cmd)
                (backend w)) as [err b'].
    cbn. rewrite ?backend_calls_app, ?written_app. by split_and!.
Qed.

(** CHECK, CLOSE and COPY never write to the connection, whatever the
    backend answers. *)
Theorem quiet_handlers :
  never_writes (B := B) Check_Handle ∧
  never_writes (B := B) Close_Handle ∧
  (∀ uid cmd, never_writes (B := B) (Copy_handle uid cmd)).
Proof.
  split_and!; [| | intros uid cmd]; intros w;
    unfold Check_Handle, Close_Handle, Copy_handle; run_handler;
    destruct (Mailbox (conn w)) as [m|] eqn:Hm; cbn; try done.
  - destruct (MailboxReadOnly (conn w)); cbn; [done |]. rewrite Hm.
    destruct (Mailbox_Check m (backend w)). cbn. apply written_snoc_call.
  - rewrite Hm.
    destruct (Mailbox_CopyMessages m uid (Copy_SeqSet cmd) (Copy_Mailbox cmd)
                (backend w)). cbn. apply written_snoc_call.
Qed.

(** EXPUNGE gives up at the first failure of the backend. Without an
    update stream, when the search for the deleted messages fails, the
    handler returns that error: the backend expunge is not called and
    nothing is written. When the backend expunge fails, the handler returns
    that error and writes no EXPUNGE line. *)
Theorem Expunge_Handle_failures w m e :
  Mailbox (conn w) = Some m →
  MailboxReadOnly (conn w) = false →
  (∀ ids b1,
     Updates (Server (conn w)) = None →
     Mailbox_SearchMessages m false SearchCriteria_Deleted (backend w)
       = ((ids, Some e), b1) →
     (Expunge_Handle w).1 = Val (Some e) ∧
     backend (Expunge_Handle w).2 = b1 ∧
     backend_calls (trace (Expunge_Handle w).2)
       = backend_calls (trace w)
         ++ [CallSearchMessages false SearchCriteria_Deleted] ∧
     written (trace (Expunge_Handle w).2) = written (trace w)) ∧
  (∀ ids b1 b2,
     Updates (Server (conn w)) = None →
     Mailbox_SearchMessages m false SearchCriteria_Deleted (backend w)
       = ((ids, None), b1) →
     Mailbox_Expunge m b1 = (Some e, b2) →
     (Expunge_Handle w).1 = Val (Some e) ∧
     backend (Expunge_Handle w).2 = b2 ∧
     written (trace (Expunge_Handle w).2) = written (trace w)).
Proof.
  intros Hm Hro. split.
  - intros ids b1 Hu Hsearch. unfold Expunge_Handle. run_handler.
    rewrite Hm, Hro, Hu. cbn. rewrite Hm, Hsearch. cbn.
    rewrite backend_calls_app, written_snoc_call. by split_and!.
  - intros ids b1 b2 Hu Hsearch Hexp. unfold Expunge_Handle. run_handler.
    rewrite Hm, Hro, Hu. cbn. rewrite Hm, Hsearch. cbn. rewrite Hm, Hexp. cbn.
    rewrite !written_snoc_call. by split_and!.
Qed.

End HandlersMore.

(** ** STORE: what is accepted *)

Section Strings.

Lemma substring_0_length (s : string) : String.substring 0 (String.length s) s = s.
Proof. induction s as [|c s IH]; cbn; [done | by rewrite IH]. Qed.

(** A string is the part before position [n] followed by the rest. *)
Lemma substring_split (n : nat) (s : string) :
  n ≤ String.length s →
  (String.substring 0 n s ++ String.substring n (String.length s - n) s)%string = s.
Proof.
  revert s. induction n as [|n IH]; intros s Hn.
  - rewrite Nat.sub_0_r, substring_0_length. by destruct s.
  - destruct s as [|c s]; cbn in Hn |- *; [lia |].
    transitivity
      (String c (String.substring 0 n s
                 ++ String.substring n (String.length s - n) s)%string);
      [reflexivity |].
    rewrite IH by lia. done.
Qed.

(** A string that has the suffix is what [TrimSuffix] leaves, followed by
    the suffix; a string that has not is left alone. *)
Lemma TrimSuffix_HasSuffix (s suffix : string) :
  HasSuffix s suffix = true → (TrimSuffix s suffix ++ suffix)%string = s.
Proof.
  intros Hhas. unfold TrimSuffix. rewrite Hhas. unfold HasSuffix in Hhas.
  apply andb_prop in Hhas as [Hlen Heq].
  apply Nat.leb_le in Hlen. apply String.eqb_eq in Heq.
  pose proof (substring_split (String.length s - String.length suffix) s) as Hsplit.
  replace (String.length s - (String.length s - String.length suffix))
    with (String.length suffix) in Hsplit by lia.
  rewrite Heq in Hsplit. apply Hsplit. lia.
Qed.

End Strings.

Section StoreMore.
Context {common : Common} {B : Type}.
Implicit Types (m : @backend_Mailbox _ B) (w : @World _ B).

(** The operation that STORE reads in an item is one of the three it
    supports exactly when the item is one of the six of [store_items]. *)
Lemma Store_item_supported (itemStr : string) :
  let sil := HasSuffix itemStr SilentOp in
  let item := if sil then TrimSuffix itemStr SilentOp else itemStr in
  item ∈ [SetFlags; AddFlags; RemoveFlags] ↔ itemStr ∈ store_items.
Proof.
  cbn zeta. split.
  - destruct (HasSuffix itemStr SilentOp) eqn:Hsil.
    + intros Hitem. rewrite <- (TrimSuffix_HasSuffix _ _ Hsil).
      unfold store_items. rewrite !elem_of_cons in Hitem.
      destruct Hitem as [-> | [-> | [-> | Hnil]]].
      * do 3 apply list_elem_of_further. apply list_elem_of_here.
      * do 4 apply list_elem_of_further. apply list_elem_of_here.
      * do 5 apply list_elem_of_further. apply list_elem_of_here.
      * by apply elem_of_nil in Hnil.
    + intros Hitem. unfold store_items. rewrite !elem_of_cons in Hitem |- *.
      destruct Hitem as [-> | [-> | [-> | Hnil]]]; [auto.. |].
      by apply elem_of_nil in Hnil.
  - unfold store_items. rewrite !elem_of_cons.
    intros [-> | [-> | [-> | [-> | [-> | [-> | Hnil]]]]]]; cbn;
      [auto using list_elem_of_here, list_elem_of_further.. |].
    by apply elem_of_nil in Hnil.
Qed.

(** STORE checks its arguments before it touches anything. On a selected,
    writable mailbox, an item that is none of the six of [store_items], a
    value that is not a list, or a list that [ParseStringList] refuses, is
    answered by an error and the world is left as it was: the [silent]
    flag is not set and the backend is not called. *)
Theorem Store_handle_rejects uid cmd w m :
  Mailbox (conn w) = Some m →
  MailboxReadOnly (conn w) = false →
  (Store_Item cmd ∉ store_items →
   Store_handle uid cmd w = (Val (Some "Unsupported STORE operation"%string), w)) ∧
  (Store_Item cmd ∈ store_items →
   (∀ flagsList, Store_Value cmd ≠ FList flagsList) →
   Store_handle uid cmd w = (Val (Some "Flags must be a list"%string), w)) ∧
  (Store_Item cmd ∈ store_items →
   ∀ flagsList flags e,
     Store_Value cmd = FList flagsList →
     ParseStringList flagsList = (flags, Some e) →
     Store_handle uid cmd w = (Val (Some e), w)).
Proof.
  intros Hm Hro.
  pose proof (Store_item_supported (Store_Item cmd)) as Hsup. cbn zeta in Hsup.
  assert (∀ item : string,
            negb (String.eqb item SetFlags) && negb (String.eqb item AddFlags)
            && negb (String.eqb item RemoveFlags) = false
            ↔ item ∈ [SetFlags; AddFlags; RemoveFlags]) as Hop.
  { intros item. rewrite !elem_of_cons.
    destruct (String.eqb_spec item SetFlags) as [->|H1]; cbn; [by split; auto |].
    destruct (String.eqb_spec item AddFlags) as [->|H2]; cbn; [by split; auto |].
    destruct (String.eqb_spec item RemoveFlags) as [->|H3]; cbn; [by split; auto |].
    split; [done |]. intros [? | [? | [? | Hnil]]]; try done.
    by apply elem_of_nil in Hnil. }
  split_and!.
  - intros Hitem. rewrite <- Hsup, <- Hop in Hitem.
    apply not_false_is_true in Hitem.
    unfold Store_handle. run_handler. rewrite Hm, Hro. by rewrite Hitem.
  - intros Hitem Hval. rewrite <- Hsup, <- Hop in Hitem.
    unfold Store_handle. run_handler. rewrite Hm, Hro, Hitem.
    destruct (Store_Value cmd) as [|str|flagsList|lit]; try done.
    by destruct (Hval flagsList).
  - intros Hitem flagsList flags e Hval Hparse. rewrite <- Hsup, <- Hop in Hitem.
    unfold Store_handle. run_handler. rewrite Hm, Hro, Hitem, Hval, Hparse. done.
Qed.

(** When the backend refuses the flag mutation, STORE returns its error
    and stops: it lists no message and writes nothing, with or without
    [.SILENT], and the [silent] flag is false again. *)
Theorem Store_handle_backend_failure uid cmd w m flagsList flags e b1 :
  Mailbox (conn w) = Some m →
  MailboxReadOnly (conn w) = false →
  let sil := HasSuffix (Store_Item cmd) SilentOp in
  let item := if sil then TrimSuffix (Store_Item cmd) SilentOp
              else Store_Item cmd in
  Store_Item cmd ∈ store_items →
  Store_Value cmd = FList flagsList →
  ParseStringList flagsList = (flags, None) →
  Mailbox_UpdateMessagesFlags m uid (Store_SeqSet cmd) item flags (backend w)
    = (Some e, b1) →
  (Store_handle uid cmd w).1 = Val (Some e) ∧
  backend (Store_handle uid cmd w).2 = b1 ∧
  silent (conn (Store_handle uid cmd w).2) = false ∧
  backend_calls (trace (Store_handle uid cmd w).2)
    = backend_calls (trace w)
      ++ [CallUpdateMessagesFlags uid (Store_SeqSet cmd) item flags] ∧
  written (trace (Store_handle uid cmd w).2) = written (trace w).
Proof.
  intros Hm Hro sil item Hitem Hval Hparse Hupd.
  apply Store_item_supported in Hitem. fold sil item in Hitem.
  pose proof (Store_handle_accepted uid cmd w m flagsList flags Hm Hro Hitem
                Hval Hparse) as Hrun.
  fold sil item in Hrun. rewrite Hupd in Hrun. rewrite Hrun. cbn [fst snd conn backend trace].
  rewrite backend_calls_app, written_snoc_call. by split_and!.
Qed.

End StoreMore.

(** * Further properties of the dispatcher *)

Section DispatchMore.
Context {common : Common} {B : Type}.
Implicit Types (s : @Server_ _ B) (w : @World _ B) (cmd : Command).

(** The UID prefix command answers for its inner command. When the inner
    name is not registered, or its arguments do not parse, or its handler
    has no UID variant, the handler returns the error and the world is as
    it was; otherwise it is the UID variant of the inner handler. *)
Theorem Uid_Handle_routes s asUidHandler (inner : Command) w :
  (commands s !! Name inner = None →
   Uid_Handle s asUidHandler {| Uid_Cmd := inner |} w
   = (Val (Some "Unknown command"%string), w)) ∧
  (∀ (newHandler : HandlerFactory) e,
     commands s !! Name inner = Some newHandler →
     Parse (newHandler ()) (Arguments inner) = Some e →
     Uid_Handle s asUidHandler {| Uid_Cmd := inner |} w = (Val (Some e), w)) ∧
  (∀ (newHandler : HandlerFactory),
     commands s !! Name inner = Some newHandler →
     Parse (newHandler ()) (Arguments inner) = None →
     asUidHandler (newHandler ()) = None →
     Uid_Handle s asUidHandler {| Uid_Cmd := inner |} w
     = (Val (Some "Command unsupported with UID"%string), w)) ∧
  (∀ (newHandler : HandlerFactory) UidHandle,
     commands s !! Name inner = Some newHandler →
     Parse (newHandler ()) (Arguments inner) = None →
     asUidHandler (newHandler ()) = Some UidHandle →
     Uid_Handle s asUidHandler {| Uid_Cmd := inner |} w
     = UidHandle (Arguments inner) w).
Proof.
  unfold Uid_Handle, getCommandHandler. cbn. split_and!.
  - intros Hreg. by rewrite Hreg.
  - intros newHandler e Hreg Hparse. by rewrite Hreg, Hparse.
  - intros newHandler Hreg Hparse Hno. rewrite Hreg, Hparse. cbn. by rewrite Hno.
  - intros newHandler UidHandle Hreg Hparse Hyes. rewrite Hreg, Hparse. cbn.
    by rewrite Hyes.
Qed.

(** An error of the inner command of UID is a handler error for the
    dispatcher: a line [tag UID FROB] with FROB not registered is answered
    [tag NO Unknown command], where the line [tag FROB] is answered
    [tag BAD Unknown command]. *)
Theorem Uid_unknown_is_NO s s' asUidHandler fields cmd inner
    (newHandler : HandlerFactory) w :
  Command_Parse fields = (cmd, None) →
  commands s !! Name cmd = Some newHandler →
  Parse (newHandler ()) (Arguments cmd) = None →
  Handle (newHandler ()) (Arguments cmd)
    = Uid_Handle s' asUidHandler {| Uid_Cmd := inner |} →
  commands s' !! Name inner = None →
  handleConn_line s fields w
  = (Val tt, wrote (tagged cmd NO "Unknown command") w).
Proof.
  intros Hline Hreg Hparse Hhandle Hinner.
  rewrite (handleConn_line_parsed s fields cmd w Hline).
  unfold handleCommand, getCommandHandler. rewrite Hreg, Hparse. run_handler.
  rewrite Hhandle. unfold Uid_Handle, getCommandHandler. cbn.
  by rewrite Hinner.
Qed.


(** After [RegisterCommand name f], a command of that name is handled by
    [f], whatever was registered under the name before, and the commands
    of any other name are handled as before. *)
Theorem RegisterCommand_getCommandHandler name (f : HandlerFactory) s cmd :
  (Name cmd = name →
   getCommandHandler (RegisterCommand name f s) cmd
   = (Some (f ()), Parse (f ()) (Arguments cmd))) ∧
  (Name cmd ≠ name →
   getCommandHandler (RegisterCommand name f s) cmd = getCommandHandler s cmd ∧
   handleCommand (RegisterCommand name f s) cmd = handleCommand s cmd).
Proof.
  unfold handleCommand, getCommandHandler, RegisterCommand. cbn. split.
  - intros <-. by rewrite lookup_insert_eq.
  - intros Hne. by rewrite lookup_insert_ne.
Qed.

End DispatchMore.

(** * Capabilities and authentication *)

Section Capabilities.

(** A capability is listed when its registered states meet the current
    state. *)
Lemma getCaps_elem_of (caps : gmap string Z) (currentState : Z) name :
  name ∈ getCaps caps currentState ↔
  ∃ state, caps !! name = Some state ∧ Z.land currentState state ≠ 0%Z.
Proof.
  unfold getCaps. rewrite list_elem_of_bind. split.
  - intros ([name' state] & Hin & Hmap). apply elem_of_map_to_list in Hmap.
    case_bool_decide as Hmask; [| by apply elem_of_nil in Hin].
    apply list_elem_of_singleton in Hin as ->. by exists state.
  - intros (state & Hmap & Hmask). exists (name, state). split.
    + rewrite bool_decide_true by done. apply list_elem_of_here.
    + by apply elem_of_map_to_list.
Qed.

(** [getCaps] lists exactly the capabilities whose registered states meet
    the current state, each of them once. *)
Theorem getCaps_spec (caps : gmap string Z) (currentState : Z) :
  (∀ name,
     name ∈ getCaps caps currentState ↔
     ∃ state, caps !! name = Some state ∧ Z.land currentState state ≠ 0%Z) ∧
  NoDup (getCaps caps currentState).
Proof.
  split; [apply getCaps_elem_of |]. unfold getCaps.
  apply (sublist_NoDup _ _ (NoDup_fst_map_to_list caps)).
  induction (map_to_list caps) as [|[name state] rest IH]; csimpl.
  - constructor.
  - case_bool_decide; cbn; [by apply sublist_skip | by apply sublist_cons].
Qed.

(** Registering a capability shows it in the states of its mask and in no
    other, replaces an earlier registration of the name, and changes
    nothing for the other capabilities. In state 0 nothing is listed. *)
Theorem RegisterCapability_getCaps name state (caps : gmap string Z) currentState :
  (name ∈ getCaps (RegisterCapability name state caps) currentState ↔
   Z.land currentState state ≠ 0%Z) ∧
  (∀ other, other ≠ name →
     other ∈ getCaps (RegisterCapability name state caps) currentState ↔
     other ∈ getCaps caps currentState) ∧
  getCaps caps 0 = [].
Proof.
  unfold RegisterCapability. split_and!.
  - rewrite getCaps_elem_of, lookup_insert_eq. split.
    + by intros (state' & [= <-] & Hmask).
    + intros Hmask. by exists state.
  - intros other Hne. rewrite !getCaps_elem_of.
    by rewrite lookup_insert_ne.
  - apply elem_of_nil_inv. intros other Hin.
    apply getCaps_elem_of in Hin as (state' & _ & Hmask).
    by rewrite Z.land_0_l in Hmask.
Qed.

End Capabilities.

Section Plain.
Context {common : Common} {B : Type}.
Implicit Types (w : @World _ B).

(** PLAIN authentication. An identity that is neither empty nor the user
    name is refused without asking the backend. Otherwise the backend
    decides: when it refuses, its error is returned and the connection is
    as before; when it accepts, the connection is in Authenticated state
    with the user the backend returned, and its mailbox handle, read-only
    flag and [silent] flag are as before. Nothing is written. *)
Theorem PlainServer_spec Login identity username password w :
  (identity ≠ ""%string → identity ≠ username →
   PlainServer Login identity username password w
   = (Val (Some "Identities not supported"%string), w)) ∧
  (identity = ""%string ∨ identity = username →
   ∀ user err b',
     Login username password (backend w) = ((user, err), b') →
     let after := (PlainServer Login identity username password w).2 in
     (PlainServer Login identity username password w).1 = Val err ∧
     backend after = b' ∧
     trace after = trace w ∧
     (err ≠ None → conn after = conn w) ∧
     (err = None →
      State (conn after) = AuthenticatedState ∧
      User (conn after) = user ∧
      Mailbox (conn after) = Mailbox (conn w) ∧
      MailboxReadOnly (conn after) = MailboxReadOnly (conn w) ∧
      silent (conn after) = silent (conn w) ∧
      Server (conn after) = Server (conn w))).
Proof.
  unfold PlainServer. split.
  - intros Hid Huser.
    destruct (String.eqb_spec identity "") as [?|_]; [done |].
    by destruct (String.eqb_spec identity username) as [?|_].
  - intros Hid user err b' Hlogin. cbn zeta.
    assert (negb (String.eqb identity "") && negb (String.eqb identity username)
            = false) as ->.
    { destruct Hid as [-> | ->]; [done |].
      rewrite String.eqb_refl. cbn. apply andb_false_r. }
    rewrite Hlogin. destruct err as [e|]; cbn; by split_and!.
Qed.

End Plain.

(** * Further properties of the update fan-out *)

Section FanOutMore.
Context {common : Common} {B : Type}.
Implicit Types (s : @Server_ _ B) (conn : @Conn _ B) (res : @Response _)
  (update : backend_Update).

Lemma listenUpdates_range_sorted update res b k (conns : list (@Conn _ B)) :
  StronglySorted lt (listenUpdates_range update res b k conns).*1 ∧
  length (listenUpdates_range update res b k conns) ≤ length conns.
Proof.
  revert k. induction conns as [|conn rest IH]; intros k; cbn [listenUpdates_range].
  - split; [constructor | done].
  - destruct (IH (S k)) as [Hsorted Hlen].
    destruct (listenUpdates_writes update res conn); cbn; [| split; [done | lia]].
    split; [| lia]. constructor; [done |].
    apply Forall_forall. intros j Hj.
    apply list_elem_of_fmap in Hj as ([j' b'] & -> & Hin).
    apply listenUpdates_range_elem_of in Hin as (_ & Hk & _). cbn. lia.
Qed.

(** An update is written to each connection at most once, and the writes
    follow the order of [s.conns]. *)
Theorem listenUpdates_in_order WriteTo s update res :
  StronglySorted lt (listenUpdates_update WriteTo s update res).*1 ∧
  NoDup (listenUpdates_update WriteTo s update res).*1 ∧
  length (listenUpdates_update WriteTo s update res) ≤ length (conns s).
Proof.
  unfold listenUpdates_update.
  destruct (listenUpdates_range_sorted update res (WriteTo res) 0 (conns s))
    as [Hsorted Hlen].
  split_and!; [done | | done].
  clear Hlen. induction Hsorted as [|i l Hl IH Hi]; constructor; [| done].
  intros Hin. rewrite Forall_forall in Hi. specialize (Hi i Hin). lia.
Qed.

(** The [silent] flag of a connection holds back message updates only:
    a status, mailbox or expunge update is written to every connection
    whose user and mailbox pass the filter, silent or not, and a message
    update to those of them that are not silent. *)
Theorem listenUpdates_turn_silent WriteTo s item i conn :
  conns s !! i = Some conn →
  (i, WriteTo (listenUpdates_select item).2) ∈ listenUpdates_turn WriteTo s item ↔
  (Update_Username (listenUpdates_select item).1 = ""%string ∨
   ∃ user, User conn = Some user ∧
           User_Username user = Update_Username (listenUpdates_select item).1) ∧
  (Update_Mailbox (listenUpdates_select item).1 = ""%string ∨
   ∃ mbox, Mailbox conn = Some mbox ∧
           Mailbox_Name mbox = Update_Mailbox (listenUpdates_select item).1) ∧
  (is_MessageUpdate item = true → silent conn = false).
Proof.
  intros Hi. unfold listenUpdates_turn, listenUpdates_update.
  destruct (listenUpdates_select item) as [update res] eqn:Hsel. cbn [fst snd].
  rewrite listenUpdates_range_elem_of, Nat.sub_0_r.
  assert (is_Fetch res = is_MessageUpdate item) as Hfetch.
  { destruct item; injection Hsel as <- <-; done. }
  split.
  - intros (_ & _ & conn' & Hlook & Hw).
    assert (conn' = conn) as -> by congruence.
    apply listenUpdates_writes_receives in Hw as (Huser & Hmbox & Hsilent).
    split_and!; [done | done |].
    intros Hmsg. destruct (silent conn); [| done].
    destruct Hsilent. by rewrite Hfetch.
  - intros (Huser & Hmbox & Hsilent). split_and!; [done | lia |].
    exists conn. split; [done |].
    apply listenUpdates_writes_receives. split_and!; [done | done |].
    intros [Hs Hf]. rewrite Hfetch in Hf. rewrite (Hsilent Hf) in Hs. done.
Qed.

(** An update that names neither a user nor a mailbox and is no message
    update is written to every connection, in order, also to those that
    have not logged in. *)
Theorem listenUpdates_turn_broadcast WriteTo s item :
  Update_Username (listenUpdates_select item).1 = ""%string →
  Update_Mailbox (listenUpdates_select item).1 = ""%string →
  is_MessageUpdate item = false →
  listenUpdates_turn WriteTo s item
  = (λ i, (i, WriteTo (listenUpdates_select item).2)) <$> seq 0 (length (conns s)).
Proof.
  intros Huser Hmbox Hmsg. unfold listenUpdates_turn, listenUpdates_update.
  destruct (listenUpdates_select item) as [update res] eqn:Hsel.
  cbn [fst snd] in *.
  assert (is_Fetch res = false) as Hfetch.
  { destruct item; injection Hsel as <- <-; done. }
  generalize 0. induction (conns s) as [|conn rest IH]; intros k;
    cbn [listenUpdates_range length seq fmap list_fmap]; [done |].
  assert (listenUpdates_writes update res conn = true) as ->.
  { apply listenUpdates_writes_receives. split_and!; [by left | by left |].
    intros [_ Hf]. congruence. }
  by rewrite IH.
Qed.

End FanOutMore.

(** * Further properties of the client *)

Section ClientCaps.
Context {T : Type}.
Implicit Types (c : @Client.Client T).

Lemma Capability_caps_lookup names (caps : gmap string bool) name :
  Capability_caps names caps !! name
  = if bool_decide (name ∈ names) then Some true else caps !! name.
Proof.
  revert caps. induction names as [|n names IH]; intros caps; cbn [Capability_caps].
  - by rewrite bool_decide_false by apply not_elem_of_nil.
  - rewrite IH. destruct (decide (name ∈ names)) as [Hin|Hnot].
    + rewrite !bool_decide_true; [done | by right | done].
    + rewrite (bool_decide_false _ Hnot).
      destruct (decide (name = n)) as [->|Hne].
      * rewrite lookup_insert_eq. by rewrite bool_decide_true by left.
      * rewrite lookup_insert_ne by done.
        rewrite bool_decide_false; [done |].
        rewrite elem_of_cons. by intros [?|?].
Qed.

(** A CAPABILITY exchange that succeeds replaces the client's
    capabilities by the names the server listed: afterwards a name reads
    as true exactly when the server listed it, whatever the client held
    before, and [SupportsAuthentication mech] holds exactly when the
    server listed [AUTH=mech]. The same map is returned. *)
Theorem Client_Capability_success run Err answered c status c1 :
  Client.execute run Client.Capability c = ((status, None), c1) →
  Err status = Val None →
  ∃ caps,
    (Client_Capability run Err answered c).1 = Val (Some caps, None) ∧
    Client.Caps (Client_Capability run Err answered c).2 = caps ∧
    (∀ name, caps !! name = if bool_decide (name ∈ answered c) then Some true else None) ∧
    (∀ mech,
       Client_SupportsAuthentication mech (Client_Capability run Err answered c).2 = true
       ↔ ("AUTH=" ++ mech)%string ∈ answered c) ∧
    Client.State (Client_Capability run Err answered c).2 = Client.State c1 ∧
    Client.executed (Client_Capability run Err answered c).2 = Client.executed c1.
Proof.
  intros Hexec Herr. unfold Client_Capability. rewrite Hexec, Herr. cbn.
  exists (Capability_caps (answered c) ∅). split_and!; try done.
  - intros name. by rewrite Capability_caps_lookup, lookup_empty.
  - intros mech. unfold Client_SupportsAuthentication. cbn.
    rewrite Capability_caps_lookup, lookup_empty.
    case_bool_decide; cbn; split; done.
Qed.

(** A CAPABILITY exchange that fails, in the execution or by its status,
    returns the error and no map, and does not touch the capabilities the
    client holds: the client is as the execution left it. *)
Theorem Client_Capability_failure run Err answered c status err c1 e :
  Client.execute run Client.Capability c = ((status, err), c1) →
  err = Some e ∨ (err = None ∧ Err status = Val (Some e)) →
  Client_Capability run Err answered c = (Val (None, Some e), c1).
Proof.
  intros Hexec Hfail. unfold Client_Capability. rewrite Hexec.
  destruct Hfail as [-> | [-> Herr]]; [done |]. by rewrite Herr.
Qed.

End ClientCaps.

(** * The further properties at work *)

Example getCaps_demo :
  getCaps demo_caps 1 = ["STARTTLS"%string] ∧
  getCaps demo_caps 2 = ["IDLE"%string] ∧
  getCaps demo_caps 4 = ["IDLE"%string] ∧
  getCaps demo_caps 8 = [].
Proof. by vm_compute. Qed.


Lemma Expunge_Handle_failures_witness :
  let broken := demo_world (demo_conn (Some demo_broken) false None) [3%N] in
  let locked := demo_world (demo_conn (Some demo_locked) false None) [3%N] in
  (Mailbox (conn broken) = Some demo_broken ∧ MailboxReadOnly (conn broken) = false) ∧
  (Expunge_Handle broken).1 = Val (Some "backend failure"%string) ∧
  backend_calls (trace (Expunge_Handle broken).2)
    = [CallSearchMessages false SearchCriteria_Deleted] ∧
  (Expunge_Handle locked).1 = Val (Some "Mailbox is locked"%string) ∧
  written (trace (Expunge_Handle locked).2) = [].
Proof.
  intros broken locked. split; [by split |].
  destruct (Expunge_Handle_failures broken demo_broken "backend failure"%string
              eq_refl eq_refl) as [Hsearch _].
  destruct (Hsearch [] [3%N] eq_refl eq_refl) as (Hres & _ & Hcalls & _).
  destruct (Expunge_Handle_failures locked demo_locked "Mailbox is locked"%string
              eq_refl eq_refl) as [_ Hexpunge].
  destruct (Hexpunge [3%N] [3%N] [3%N] eq_refl eq_refl eq_refl) as (Hres' & _ & Hwritten).
  by split_and!.
Defined.

Lemma Store_handle_rejects_witness :
  let w := demo_world (demo_conn (Some demo_INBOX) false None) [] in
  let odd : @Store demo_Common :=
    {| Store_SeqSet := "1"%string; Store_Item := "FLAGS.SILENT.SILENT"%string;
       Store_Value := FList [] |} in
  let atom : @Store demo_Common :=
    {| Store_SeqSet := "1"%string; Store_Item := "FLAGS"%string;
       Store_Value := FString "\Seen" |} in
  let nested : @Store demo_Common :=
    {| Store_SeqSet := "1"%string; Store_Item := "FLAGS"%string;
       Store_Value := FList [FList []] |} in
  (Mailbox (conn w) = Some demo_INBOX ∧ MailboxReadOnly (conn w) = false) ∧
  Store_handle false odd w = (Val (Some "Unsupported STORE operation"%string), w) ∧
  Store_handle false atom w = (Val (Some "Flags must be a list"%string), w) ∧
  Store_handle false nested w
    = (Val (Some "String list contains a non-string"%string), w).
Proof.
  intros w odd atom nested. split; [by split |].
  assert ("FLAGS"%string ∈ store_items) as Hflags by apply list_elem_of_here.
  split_and!.
  - apply (proj1 (Store_handle_rejects false odd w demo_INBOX eq_refl eq_refl)).
    unfold store_items. cbn. rewrite !elem_of_cons.
    intros [? | [? | [? | [? | [? | [? | Hnil]]]]]]; try discriminate.
    by apply elem_of_nil in Hnil.
  - apply (proj1 (proj2 (Store_handle_rejects false atom w demo_INBOX eq_refl eq_refl)));
      [exact Hflags | discriminate].
  - exact (proj2 (proj2 (Store_handle_rejects false nested w demo_INBOX eq_refl eq_refl))
             Hflags [FList []] [] _ eq_refl eq_refl).
Defined.

Lemma Store_handle_backend_failure_witness :
  let w := demo_world (demo_conn (Some demo_broken) false None) [] in
  (Mailbox (conn w) = Some demo_broken ∧ MailboxReadOnly (conn w) = false ∧
   Store_Item demo_store_loud ∈ store_items) ∧
  (Store_handle true demo_store_loud w).1 = Val (Some "backend failure"%string) ∧
  written (trace (Store_handle true demo_store_loud w).2) = [].
Proof.
  intros w.
  assert (Store_Item demo_store_loud ∈ store_items) as Hitem by apply list_elem_of_here.
  split; [by split_and! |].
  destruct (Store_handle_backend_failure true demo_store_loud w demo_broken
              [FString "\Seen"] ["\Seen"%string] "backend failure"%string []
              eq_refl eq_refl Hitem eq_refl eq_refl eq_refl)
    as (Hres & _ & _ & _ & Hwritten).
  split; [exact Hres | exact Hwritten].
Defined.

Lemma Uid_Handle_routes_witness :
  let w := demo_world (demo_conn (Some demo_INBOX) false None) [] in
  let uid name := {| Uid_Cmd := {| Tag := ""; Name := name; Arguments := [] |} |} in
  Uid_Handle demo_server demo_uid_handlers (uid "FROB"%string) w
    = (Val (Some "Unknown command"%string), w) ∧
  Uid_Handle demo_server demo_no_uid_handlers (uid "CHECK"%string) w
    = (Val (Some "Command unsupported with UID"%string), w) ∧
  Uid_Handle demo_server demo_uid_handlers (uid "CHECK"%string) w = Check_Handle w.
Proof.
  intros w uid. split_and!.
  - exact (proj1 (Uid_Handle_routes demo_server demo_uid_handlers
                    {| Tag := ""; Name := "FROB"; Arguments := [] |} w) eq_refl).
  - exact (proj1 (proj2 (proj2 (Uid_Handle_routes demo_server demo_no_uid_handlers
                                  {| Tag := ""; Name := "CHECK"; Arguments := [] |} w)))
             _ eq_refl eq_refl eq_refl).
  - exact (proj2 (proj2 (proj2 (Uid_Handle_routes demo_server demo_uid_handlers
                                  {| Tag := ""; Name := "CHECK"; Arguments := [] |} w)))
             _ _ eq_refl eq_refl eq_refl).
Defined.

Lemma Uid_unknown_is_NO_witness :
  let w := demo_world (demo_conn (Some demo_INBOX) false None) [] in
  let line := [FString "a7"; FString "UID"; FString "FROB"] in
  written (trace (handleConn_line demo_uid_server line w).2)
    = [StatusLine {| StatusResp_Tag := "a7"; StatusResp_Type := NO;
                     StatusResp_Info := "Unknown command" |}].
Proof.
  intros w line.
  rewrite (Uid_unknown_is_NO demo_uid_server demo_server demo_uid_handlers line
             {| Tag := "a7"; Name := "UID"; Arguments := [FString "FROB"] |}
             (demo_inner [FString "FROB"]) _ w eq_refl eq_refl eq_refl eq_refl eq_refl).
  reflexivity.
Defined.

Lemma RegisterCommand_getCommandHandler_witness :
  let f : @HandlerFactory demo_Common demo_B :=
    λ _, {| Parse := no_arguments; Handle := λ _, Expunge_Handle |} in
  let s := RegisterCommand "CHECK" f demo_server in
  (getCommandHandler s {| Tag := "a1"; Name := "CHECK"; Arguments := [] |}).2 = None ∧
  getCommandHandler s {| Tag := "a1"; Name := "CLOSE"; Arguments := [] |}
    = getCommandHandler demo_server {| Tag := "a1"; Name := "CLOSE"; Arguments := [] |}.
Proof.
  intros f s. subst s. split.
  - rewrite (proj1 (RegisterCommand_getCommandHandler "CHECK" f demo_server
                      {| Tag := "a1"; Name := "CHECK"; Arguments := [] |}) eq_refl).
    reflexivity.
  - apply (proj2 (RegisterCommand_getCommandHandler "CHECK" f demo_server
                    {| Tag := "a1"; Name := "CLOSE"; Arguments := [] |})).
    discriminate.
Defined.

Lemma RegisterCapability_getCaps_witness :
  "IDLE"%string ∈ getCaps demo_caps 4 ∧
  ("STARTTLS"%string ∈ getCaps demo_caps 4 ↔
   "STARTTLS"%string ∈ getCaps (RegisterCapability "STARTTLS" 1 ∅) 4).
Proof.
  split.
  - apply (proj1 (RegisterCapability_getCaps "IDLE" 6
                    (RegisterCapability "STARTTLS" 1 ∅) 4)).
    discriminate.
  - apply (proj1 (proj2 (RegisterCapability_getCaps "IDLE" 6
                           (RegisterCapability "STARTTLS" 1 ∅) 4))).
    discriminate.
Defined.

Lemma PlainServer_spec_witness :
  let w := demo_world demo_anonymous [] in
  PlainServer demo_Login "root" "alice" "secret" w
    = (Val (Some "Identities not supported"%string), w) ∧
  State (conn (PlainServer demo_Login "" "alice" "secret" w).2) = AuthenticatedState ∧
  User (conn (PlainServer demo_Login "" "alice" "secret" w).2)
    = Some {| User_Username := "alice" |} ∧
  conn (PlainServer demo_Login "alice" "alice" "guess" w).2 = conn w.
Proof.
  intros w. split_and!.
  - apply (proj1 (PlainServer_spec demo_Login "root" "alice" "secret" w)); discriminate.
  - exact (proj1 (proj2 (proj2 (proj2 (proj2
             (proj2 (PlainServer_spec demo_Login "" "alice" "secret" w)
                (or_introl eq_refl) _ _ _ eq_refl)))) eq_refl)).
  - exact (proj1 (proj2 (proj2 (proj2 (proj2 (proj2
             (proj2 (PlainServer_spec demo_Login "" "alice" "secret" w)
                (or_introl eq_refl) _ _ _ eq_refl)))) eq_refl))).
  - apply (proj1 (proj2 (proj2 (proj2
             (proj2 (PlainServer_spec demo_Login "alice" "alice" "guess" w)
                (or_intror eq_refl) _ _ _ eq_refl))))).
    discriminate.
Defined.

Lemma listenUpdates_turn_silent_witness :
  let filter := {| Update_Username := "alice"; Update_Mailbox := "INBOX" |} in
  let alice := set_silent true (demo_conn (Some demo_INBOX) false (Some UpdatesChannels)) in
  conns demo_silent_server !! 0 = Some alice ∧
  (0, demo_WriteTo (RExpunge [3%N]))
    ∈ listenUpdates_turn demo_WriteTo demo_silent_server (ExpungeUpdate filter 3) ∧
  (0, demo_WriteTo (RFetch [demo_message]))
    ∉ listenUpdates_turn demo_WriteTo demo_silent_server (MessageUpdate filter demo_message).
Proof.
  intros filter alice. split; [reflexivity |]. split.
  - apply (listenUpdates_turn_silent demo_WriteTo demo_silent_server
             (ExpungeUpdate filter 3) 0 alice eq_refl).
    split_and!.
    + right. by exists {| User_Username := "alice" |}.
    + right. by exists demo_INBOX.
    + discriminate.
  - intros Hin.
    apply (listenUpdates_turn_silent demo_WriteTo demo_silent_server
             (MessageUpdate filter demo_message) 0 alice eq_refl) in Hin
      as (_ & _ & Hsilent).
    specialize (Hsilent eq_refl). discriminate.
Defined.

Lemma listenUpdates_turn_broadcast_witness :
  let bye := {| StatusResp_Tag := "*"; StatusResp_Type := BYE;
                StatusResp_Info := "Shutting down" |} in
  let item := StatusUpdate {| Update_Username := ""; Update_Mailbox := "" |} bye in
  listenUpdates_turn demo_WriteTo demo_silent_server item
  = [(0, demo_WriteTo (RStatus bye)); (1, demo_WriteTo (RStatus bye))].
Proof.
  intros bye item.
  exact (listenUpdates_turn_broadcast demo_WriteTo demo_silent_server item
           eq_refl eq_refl eq_refl).
Defined.

Lemma Client_Capability_success_witness :
  let c := demo_client NotAuthenticatedState in
  let c' := (Client_Capability demo_run_ok demo_Err demo_answered c).2 in
  Client_SupportsAuthentication "PLAIN" c' = true ∧
  Client_SupportsAuthentication "LOGIN" c' ≠ true.
Proof.
  intros c c'. subst c'.
  destruct (Client_Capability_success demo_run_ok demo_Err demo_answered c
              _ _ eq_refl eq_refl) as (caps & _ & _ & _ & Hauth & _).
  split.
  - apply Hauth. apply list_elem_of_further, list_elem_of_here.
  - intros Hlogin. apply Hauth in Hlogin. unfold demo_answered in Hlogin.
    rewrite !elem_of_cons in Hlogin.
    destruct Hlogin as [? | [? | Hnil]]; try discriminate.
    by apply elem_of_nil in Hnil.
Defined.

Lemma Client_Capability_failure_witness :
  let c := demo_client NotAuthenticatedState in
  (Client_Capability demo_run demo_Err demo_answered c).1
    = Val (None, Some "Not now"%string) ∧
  Client.Caps (Client_Capability demo_run demo_Err demo_answered c).2 = Client.Caps c.
Proof.
  intros c.
  rewrite (Client_Capability_failure demo_run demo_Err demo_answered c _ _ _
             "Not now"%string eq_refl (or_intror (conj eq_refl eq_refl))).
  by split.
Defined.
